(** * RISC-V support primitives of xmrig: a shallow embedding

    Sources embedded here:
    - [src/crypto/riscv/riscv_crypto.h]  (cipher-round fallback, rotate, add.uw)
    - [src/crypto/riscv/riscv_memory.h]  (bulk compare)
    - [src/crypto/riscv/riscv_rvv.h]     (vector fill and compare)
    - [src/crypto/rx/RxDataset_riscv.h]  (thread advice, aligned copy)

    Every header is written twice, once under a feature macro and once as a
    fallback.  Each preprocessor branch is a [Module] below, so that the two
    definitions of one C function keep the C name:
    - [RiscV]   is the [#if defined(XMRIG_RISCV)] branch, built without
                [__riscv_zba]/[__riscv_zbb] (the C bodies, not the inline asm);
    - [Generic] is the [#else /* !XMRIG_RISCV */] branch;
    - [RVV]     is the [#if XMRIG_RVV_ENABLED] branch of [riscv_rvv.h];
    - [Scalar]  is its [#else] branch. *)

From Stdlib Require Import ZArith List Lia Bool Permutation PeanoNat.
From coqutil Require Import Byte Word.LittleEndianList.
Import ListNotations.
Local Open Scope Z_scope.

(** ** C integers

    Fixed-width integers are [Z] with the wrap-around written where C has it.
    An execution without a defined result (an access outside a buffer, a shift
    count that is negative or beyond the operand's width, a loop that ran out
    of fuel) is [None]. *)

Definition UINT32_MOD : Z := 2 ^ 32.
Definition UINT64_MOD : Z := 2 ^ 64.
Definition INT_MIN : Z := - 2 ^ 31.
Definition INT_MAX : Z := 2 ^ 31 - 1.

Definition to_uint32 (z : Z) : Z := z mod UINT32_MOD.
Definition to_uint64 (z : Z) : Z := z mod UINT64_MOD.

(** Conversion to [int] (two's complement, as every supported target does). *)
Definition to_int (z : Z) : Z := (z + 2 ^ 31) mod UINT32_MOD - 2 ^ 31.

Definition is_uint32 (z : Z) : Prop := 0 <= z < UINT32_MOD.
Definition is_uint64 (z : Z) : Prop := 0 <= z < UINT64_MOD.
Definition is_int (z : Z) : Prop := INT_MIN <= z <= INT_MAX.

Notation "x <- c ;; k" := (match c with Some x => k | None => None end)
  (at level 61, c at next level, right associativity).

(** [x >> r] and [x << r] on a [uint32_t] operand.  C gives them a value for
    [0 <= r < 32].  The count 32 is the one [riscv_rotr32] asks for at
    [r = 0]: compiled code then either shifts every bit out or reduces the
    count to 0.  The model takes the first reading, which is [Z.shiftl] and
    [Z.shiftr] followed by the wrap; [rotr32_zero_count_reduced] shows that
    the rotation comes out the same under the second.  Any other count has
    no result. *)
Definition shift_count_ok (width r : Z) : bool := (0 <=? r) && (r <=? width).

Definition shr_u32 (x r : Z) : option Z :=
  if shift_count_ok 32 r then Some (Z.shiftr x r) else None.

Definition shl_u32 (x r : Z) : option Z :=
  if shift_count_ok 32 r then Some (to_uint32 (Z.shiftl x r)) else None.

(** ** Buffers

    A pointer argument is the byte buffer it points to; [p + k] is the same
    buffer read at offset [k].  Two pointer arguments of one call are two
    buffers: none of the calls below is made with overlapping ranges.  Wide
    accesses are little-endian, as on every RISC-V and x86 target. *)

Definition buffer : Type := list byte.

(** [((const uint8_t * )p)[i]] *)
Definition load8 (p : buffer) (i : nat) : option byte := nth_error p i.

(** [width] bytes of [p] starting at byte [off], or [None] outside [p]. *)
Definition load_bytes (p : buffer) (off width : nat) : option (list byte) :=
  if (off + width <=? length p)%nat then Some (firstn width (skipn off p)) else None.

Definition store_bytes (p : buffer) (off : nat) (bs : list byte) : option buffer :=
  if (off + length bs <=? length p)%nat
  then Some (firstn off p ++ bs ++ skipn (off + length bs) p)
  else None.

(** [((const uint64_t * )p)[i]] and [((uint64_t * )p)[i] = v] *)
Definition load64 (p : buffer) (i : nat) : option Z :=
  bs <- load_bytes p (8 * i) 8 ;; Some (le_combine bs).

Definition store64 (p : buffer) (i : nat) (v : Z) : option buffer :=
  store_bytes p (8 * i) (le_split 8 v).

(** [((uint32_t * )p)[i] = v] *)
Definition store32 (p : buffer) (i : nat) (v : Z) : option buffer :=
  store_bytes p (4 * i) (le_split 4 v).

(** ** Loops with an early [return] *)

Inductive flow : Type :=
| Next                (* the body fell through: go on with the loop *)
| Return (v : Z).     (* the body executed [return v] *)

(** [for (i = start; i < start + count; ++i) body(i)] *)
Fixpoint for_range (start count : nat) (body : nat -> option flow) : option flow :=
  match count with
  | O => Some Next
  | S count' =>
      match body start with
      | Some Next => for_range (S start) count' body
      | stop => stop
      end
  end.

(** [if (a[j] != b[j]) return a[j] - b[j];] on [uint8_t] operands, which C
    promotes to [int] before comparing and subtracting. *)
Definition cmp_byte (a b : buffer) (j : nat) : option flow :=
  x <- load8 a j ;;
  y <- load8 b j ;;
  if byte.unsigned x =? byte.unsigned y
  then Some Next
  else Some (Return (byte.unsigned x - byte.unsigned y)).

(** ** The C library

    [memcpy], [memset] and [memcmp] come from the C library.  The standard
    fixes the bytes written and, for [memcmp], only the sign of the result
    (zero on equal ranges).  The model of [memcmp] has to return some value
    of that sign and returns the difference of the first two bytes that
    differ; what is stated below of a routine that calls [memcmp] is its
    sign and whether it is zero, never its magnitude. *)

Definition memcpy (dst src : buffer) (n : nat) : option buffer :=
  bs <- load_bytes src 0 n ;; store_bytes dst 0 bs.

(** [memset(p + off, c, n)]: [c] is converted to [unsigned char]. *)
Definition memset (p : buffer) (off : nat) (c : Z) (n : nat) : option buffer :=
  store_bytes p off (repeat (byte.of_Z c) n).

Definition memcmp (s1 s2 : buffer) (n : nat) : option Z :=
  match for_range 0 n (cmp_byte s1 s2) with
  | Some (Return v) => Some v
  | Some Next => Some 0
  | None => None
  end.

(** ** riscv_crypto.h: the substitution tables *)

(** [riscv_aes_sbox_t]: the two 256-entry tables.  The object
    [riscv_aes_tables] is declared [extern] and defined in another translation
    unit, so the functions below take it as an argument. *)
Record riscv_aes_sbox_t : Type := {
  sbox_enc : list Z;
  sbox_dec : list Z
}.

(** A table as the C type has it: 256 entries, each a [uint32_t]. *)
Definition table_ok (t : list Z) : Prop :=
  length t = 256%nat /\ Forall is_uint32 t.

Definition sbox_ok (riscv_aes_tables : riscv_aes_sbox_t) : Prop :=
  table_ok (sbox_enc riscv_aes_tables) /\ table_ok (sbox_dec riscv_aes_tables).

(** [t[b]] for an index that was masked with [0xFF]. *)
Definition table_get (t : list Z) (b : Z) : Z := nth (Z.to_nat b) t 0.

(** ** 64-bit shifts, narrower accesses, loops that write

    What the remaining functions of the four headers need beyond the above. *)

(** [x >> r] and [x << r] on a [uint64_t] operand, for [0 <= r <= 64] as
    above. *)
Definition shr_u64 (x r : Z) : option Z :=
  if shift_count_ok 64 r then Some (Z.shiftr x r) else None.

Definition shl_u64 (x r : Z) : option Z :=
  if shift_count_ok 64 r then Some (to_uint64 (Z.shiftl x r)) else None.

(** [((uint32_t * )p)[i]] *)
Definition load32 (p : buffer) (i : nat) : option Z :=
  bs <- load_bytes p (4 * i) 4 ;; Some (le_combine bs).

(** [((uint8_t * )p)[i] = v] *)
Definition store8 (p : buffer) (i : nat) (v : byte) : option buffer :=
  store_bytes p i [v].

(** [for (i = start; i < start + count; ++i) body(i)] for a body that writes
    to the buffer [d] and never leaves the loop early. *)
Fixpoint for_each (start count : nat) (body : nat -> buffer -> option buffer)
    (d : buffer) : option buffer :=
  match count with
  | O => Some d
  | S count' => d' <- body start d ;; for_each (S start) count' body d'
  end.

(** [memcpy(dst + doff, src + soff, n)] of the C library. *)
Definition memcpy_at (dst : buffer) (doff : nat) (src : buffer) (soff : nat) (n : nat)
  : option buffer :=
  bs <- load_bytes src soff n ;; store_bytes dst doff bs.

(** [a8[k] ^= b8[k]] on [uint8_t] elements: both bytes are promoted to [int],
    XORed, and the result is converted back. *)
Definition xor_byte_at (a b : buffer) (k : nat) : option buffer :=
  x <- load8 a k ;;
  y <- load8 b k ;;
  store8 a k (byte.of_Z (Z.lxor (byte.unsigned x) (byte.unsigned y))).

(** ** The [XMRIG_RISCV] branches *)

Module RiscV.

(** *** riscv_crypto.h *)

(** [riscv_aes_enc_round], riscv_crypto.h:78-94.  [round_key] is the word
    the pointer argument points to. *)
Definition riscv_aes_enc_round (riscv_aes_tables : riscv_aes_sbox_t)
    (input : Z) (round_key : Z) : Z :=
  let b0 := Z.land (Z.shiftr input 0) 0xFF in
  let b1 := Z.land (Z.shiftr input 8) 0xFF in
  let b2 := Z.land (Z.shiftr input 16) 0xFF in
  let b3 := Z.land (Z.shiftr input 24) 0xFF in
  let result :=
    Z.lxor (Z.lxor (Z.lxor (table_get (sbox_enc riscv_aes_tables) b0)
                           (table_get (sbox_enc riscv_aes_tables) b1))
                   (table_get (sbox_enc riscv_aes_tables) b2))
           (table_get (sbox_enc riscv_aes_tables) b3) in
  Z.lxor result round_key.

(** [riscv_rotr32], scalar branch, riscv_crypto.h:106:
    [(x >> r) | (x << (32 - r))]. *)
Definition riscv_rotr32 (x : Z) (r : Z) : option Z :=
  hi <- shr_u32 x r ;;
  lo <- shl_u32 x (32 - r) ;;
  Some (Z.lor hi lo).

(** [riscv_add_uw], C branch, riscv_crypto.h:159. *)
Definition riscv_add_uw (a b : Z) : Z :=
  Z.land (to_uint64 (Z.land a 0xFFFFFFFF + Z.land b 0xFFFFFFFF)) 0xFFFFFFFF.

(** *** riscv_memory.h *)

(** The byte loop of [riscv_memcmp_fast], lines 188-192:
    [for (j = i * 8; j < (i + 1) * 8 && j < n; ++j)]. *)
Definition memcmp_fast_qword (s1 s2 : buffer) (n : nat) (i : nat) : option flow :=
  for_range (i * 8) (Nat.min ((i + 1) * 8) n - i * 8) (cmp_byte s1 s2).

(** [riscv_memcmp_fast], riscv_memory.h:177-209. *)
Definition riscv_memcmp_fast (s1 s2 : buffer) (n : nat) : option Z :=
  let qwords := (n / 8)%nat in
  match for_range 0 qwords (fun i =>
          a <- load64 s1 i ;;
          b <- load64 s2 i ;;
          if a =? b then Some Next else memcmp_fast_qword s1 s2 n i)
  with
  | None => None
  | Some (Return v) => Some v
  | Some Next =>
      let remainder := (n mod 8)%nat in
      if (0 <? remainder)%nat then
        match for_range 0 remainder
                (fun i => cmp_byte s1 s2 (qwords * 8 + i)) with
        | None => None
        | Some (Return v) => Some v
        | Some Next => Some 0
        end
      else Some 0
  end.

(** *** RxDataset_riscv.h *)

(** [riscv_optimal_init_threads], RxDataset_riscv.h:54-60, on [uint32_t]. *)
Definition riscv_optimal_init_threads (available_threads : Z) : Z :=
  let recommended := to_uint32 (available_threads * 3) / 4 in
  if 0 <? recommended then recommended else 1.

(** [prefetch_dataset_item] issues [prefetch.r] hints only: no byte of any
    buffer changes. *)
Definition prefetch_dataset_item (item : buffer) (off size : nat) : unit := tt.

(** [d[k] = s[k]] on [uint64_t] elements. *)
Definition copy_qword (d s : buffer) (k : nat) : option buffer :=
  v <- load64 s k ;; store64 d k v.

(** The loop of [aligned_memcpy_opt], lines 80-92:
    [for (size_t i = 0; i < chunks; i += 8)]. *)
Fixpoint aligned_memcpy_loop (fuel : nat) (d s : buffer) (chunks i : nat)
  : option buffer :=
  if (i <? chunks)%nat then
    match fuel with
    | O => None
    | S fuel' =>
        let _ := if (i + 8 <? chunks)%nat
                 then prefetch_dataset_item s (8 * (i + 8)) 64 else tt in
        d <- copy_qword d s i ;;
        d <- copy_qword d s (i + 1) ;;
        d <- copy_qword d s (i + 2) ;;
        d <- copy_qword d s (i + 3) ;;
        d <- copy_qword d s (i + 4) ;;
        d <- copy_qword d s (i + 5) ;;
        d <- copy_qword d s (i + 6) ;;
        d <- copy_qword d s (i + 7) ;;
        aligned_memcpy_loop fuel' d s chunks (i + 8)
    end
  else Some d.

(** [aligned_memcpy_opt], RxDataset_riscv.h:73-93; the result is the
    destination buffer after the call.  [i] grows by 8 in every iteration,
    so [chunks] iterations are more than the loop can make. *)
Definition aligned_memcpy_opt (dst src : buffer) (size : nat) : option buffer :=
  let chunks := (size / 8)%nat in
  aligned_memcpy_loop chunks dst src chunks 0.

(** [get_optimal_cpu_core], RxDataset_riscv.h:96-101.  [online] is what
    [sysconf(_SC_NPROCESSORS_ONLN)] returned (a [long]); the remainder is
    taken in [long] and converted to the [int] result. *)
Definition get_optimal_cpu_core (online : Z) (thread_id : Z) : Z :=
  let nprocs := online in
  let nprocs := if nprocs <=? 0 then 1 else nprocs in
  to_int (Z.rem thread_id nprocs).

(** *** riscv_crypto.h, continued *)

(** [riscv_rotr64], scalar branch, riscv_crypto.h:119:
    [(x >> r) | (x << (64 - r))]. *)
Definition riscv_rotr64 (x : Z) (r : Z) : option Z :=
  hi <- shr_u64 x r ;;
  lo <- shl_u64 x (64 - r) ;;
  Some (Z.lor hi lo).

(** *** riscv_memory.h, continued *)

Definition CACHELINE_SIZE : nat := 64.

(** [riscv_prefetch_read] emits an assembler comment: no effect on data. *)
Definition riscv_prefetch_read (addr : buffer) (off : nat) : unit := tt.

(** [riscv_memcpy_prefetch], riscv_memory.h:119-148.  [dest64[j]] with
    [dest64 = d + i * 64] is the 64-bit element [8 * i + j] of [d]. *)
Definition riscv_memcpy_prefetch (dest src : buffer) (size : nat) : option buffer :=
  let cache_lines := (size / CACHELINE_SIZE)%nat in
  d <- for_each 0 cache_lines (fun i d =>
         let _ := if (i + 4 <? cache_lines)%nat
                  then riscv_prefetch_read src ((i + 4) * CACHELINE_SIZE) else tt in
         for_each 0 8 (fun j d => copy_qword d src (8 * i + j)) d) dest ;;
  let remainder := (size mod CACHELINE_SIZE)%nat in
  if (0 <? remainder)%nat
  then memcpy_at d (cache_lines * CACHELINE_SIZE) src (cache_lines * CACHELINE_SIZE)
                 remainder
  else Some d.

(** The unrolled loop of [riscv_memfill64], lines 157-167:
    [while (i + 8 <= count)]; it hands the buffer and [i] to the second loop. *)
Fixpoint memfill64_unrolled (fuel : nat) (d : buffer) (value : Z) (count i : nat)
  : option (buffer * nat) :=
  if (i + 8 <=? count)%nat then
    match fuel with
    | O => None
    | S fuel' =>
        d <- store64 d (i + 0) value ;;
        d <- store64 d (i + 1) value ;;
        d <- store64 d (i + 2) value ;;
        d <- store64 d (i + 3) value ;;
        d <- store64 d (i + 4) value ;;
        d <- store64 d (i + 5) value ;;
        d <- store64 d (i + 6) value ;;
        d <- store64 d (i + 7) value ;;
        memfill64_unrolled fuel' d value count (i + 8)
    end
  else Some (d, i).

(** [riscv_memfill64], riscv_memory.h:151-174; [count] is a number of 64-bit
    elements.  The second loop, [while (i < count)], runs [count - i] times. *)
Definition riscv_memfill64 (dest : buffer) (value : Z) (count : nat) : option buffer :=
  st <- memfill64_unrolled count dest value count 0 ;;
  for_each (snd st) (count - snd st) (fun i d => store64 d i value) (fst st).

End RiscV.

(** ** The [!XMRIG_RISCV] branches *)

Module Generic.

(** [riscv_rotr32], riscv_crypto.h:174. *)
Definition riscv_rotr32 (x : Z) (r : Z) : option Z :=
  hi <- shr_u32 x r ;;
  lo <- shl_u32 x (32 - r) ;;
  Some (Z.lor hi lo).

(** [riscv_add_uw], riscv_crypto.h:178: no mask on the sum. *)
Definition riscv_add_uw (a b : Z) : Z :=
  to_uint64 (Z.land a 0xFFFFFFFF + Z.land b 0xFFFFFFFF).

(** [riscv_memcmp_fast], riscv_memory.h:272-275. *)
Definition riscv_memcmp_fast (s1 s2 : buffer) (n : nat) : option Z :=
  memcmp s1 s2 n.

(** [riscv_optimal_init_threads], RxDataset_riscv.h:113. *)
Definition riscv_optimal_init_threads (available : Z) : Z := available.

(** [aligned_memcpy_opt], RxDataset_riscv.h:115. *)
Definition aligned_memcpy_opt (dst src : buffer) (size : nat) : option buffer :=
  memcpy dst src size.

(** [get_optimal_cpu_core], RxDataset_riscv.h:116. *)
Definition get_optimal_cpu_core (thread_id : Z) : Z := thread_id.

(** [riscv_rotr64], riscv_crypto.h:175. *)
Definition riscv_rotr64 (x : Z) (r : Z) : option Z :=
  hi <- shr_u64 x r ;;
  lo <- shl_u64 x (64 - r) ;;
  Some (Z.lor hi lo).

(** [riscv_memcpy_prefetch], riscv_memory.h:260-263. *)
Definition riscv_memcpy_prefetch (dest src : buffer) (size : nat) : option buffer :=
  memcpy dest src size.

(** [riscv_memfill64], riscv_memory.h:265-270. *)
Definition riscv_memfill64 (dest : buffer) (value : Z) (count : nat) : option buffer :=
  for_each 0 count (fun i d => store64 d i value) dest.

End Generic.

(** ** riscv_rvv.h, the [XMRIG_RVV_ENABLED] branch

    The intrinsics of [<riscv_vector.h>] belong to the toolchain.  A vector
    value is the list of its first [vl] elements.  The length [vsetvl]
    grants is the hart's choice, so both [vsetvl] intrinsics are parameters;
    [vsetvl_ok] is what the vector specification promises of them. *)

Definition vsetvl_ok (vsetvl : nat -> nat) : Prop :=
  forall avl : nat, (0 < avl -> 0 < vsetvl avl <= avl)%nat.

(** The usual hart: as many elements as fit in a [VLEN]-bit register. *)
Definition vsetvl_vlen (VLEN sew : nat) (avl : nat) : nat := Nat.min avl (VLEN / sew).

Module RVV.
Section Hart.
Variable vsetvl_e64m1 : nat -> nat.
Variable vsetvl_e32m1 : nat -> nat.

(** [__riscv_vle64_v_u64m1(p + i, vl)] *)
Fixpoint vle64_v_u64m1 (p : buffer) (i vl : nat) : option (list Z) :=
  match vl with
  | O => Some []
  | S vl' =>
      w <- load64 p i ;;
      ws <- vle64_v_u64m1 p (S i) vl' ;;
      Some (w :: ws)
  end.

(** [__riscv_vmsne_vv_u64m1_b64(va, vb, vl)] *)
Definition vmsne_vv_u64m1_b64 (va vb : list Z) : list bool :=
  map (fun xy => negb (fst xy =? snd xy)) (combine va vb).

(** [__riscv_vcpop_m_b64(mask, vl)] *)
Definition vcpop_m_b64 (mask : list bool) : nat := count_occ bool_dec mask true.

(** [__riscv_vmv_v_x_u32m1(x, vl)] *)
Definition vmv_v_x_u32m1 (x : Z) (vl : nat) : list Z := repeat x vl.

(** [__riscv_vse32_v_u32m1(p + i, v, vl)] *)
Fixpoint vse32_v_u32m1 (p : buffer) (i : nat) (v : list Z) : option buffer :=
  match v with
  | [] => Some p
  | w :: v' => p <- store32 p i w ;; vse32_v_u32m1 p (S i) v'
  end.

(** The loop of [riscv_memset_rvv], riscv_rvv.h:103-108.  Fuel [count] is
    enough when every [vsetvl] grants at least one element. *)
Fixpoint memset_rvv_loop (fuel : nat) (d32 : buffer) (pattern : Z) (count i : nat)
  : option buffer :=
  if (i <? count)%nat then
    match fuel with
    | O => None
    | S fuel' =>
        let vl := vsetvl_e32m1 (count - i) in
        let vp := vmv_v_x_u32m1 pattern vl in
        d32 <- vse32_v_u32m1 d32 i vp ;;
        memset_rvv_loop fuel' d32 pattern count (i + vl)
    end
  else Some d32.

(** [riscv_memset_rvv], riscv_rvv.h:98-117. *)
Definition riscv_memset_rvv (dst : buffer) (pattern : Z) (size : nat) : option buffer :=
  let count := (size / 4)%nat in
  dst <- memset_rvv_loop count dst pattern count 0 ;;
  let remainder := (size mod 4)%nat in
  if negb (remainder =? 0)%nat
  then memset dst (size - remainder) (Z.land pattern 0xFF) remainder
  else Some dst.

(** The loop of [riscv_memcmp_rvv], riscv_rvv.h:153-164.  [Some true] is
    [goto scalar_fallback], [Some false] is the loop running to its end. *)
Fixpoint memcmp_rvv_loop (fuel : nat) (a b : buffer) (count i : nat) : option bool :=
  if (i <? count)%nat then
    match fuel with
    | O => None
    | S fuel' =>
        let vl := vsetvl_e64m1 (count - i) in
        va <- vle64_v_u64m1 a i vl ;;
        vb <- vle64_v_u64m1 b i vl ;;
        let cmp := vmsne_vv_u64m1_b64 va vb in
        if (0 <? vcpop_m_b64 cmp)%nat then Some true
        else memcmp_rvv_loop fuel' a b count (i + vl)
    end
  else Some false.

(** [riscv_memcmp_rvv], riscv_rvv.h:147-181. *)
Definition riscv_memcmp_rvv (a b : buffer) (size : nat) : option Z :=
  let count := (size / 8)%nat in
  scalar_fallback <- memcmp_rvv_loop count a b count 0 ;;
  if scalar_fallback : bool then memcmp a b size
  else
    let remainder := (size mod 8)%nat in
    if negb (remainder =? 0)%nat then
      match for_range 0 remainder
              (fun j => cmp_byte a b (size - remainder + j)) with
      | None => None
      | Some (Return v) => Some v
      | Some Next => Some 0
      end
    else Some 0.

(** *** The other vector routines of riscv_rvv.h *)

Variable vsetvl_e8m1 : nat -> nat.

(** [__riscv_vle64_v_f64m1((double * )(p + i), vl)]: a unit-stride load moves
    bit patterns, so a vector of doubles is the list of its 64-bit patterns. *)
Definition vle64_v_f64m1 (p : buffer) (i vl : nat) : option (list Z) :=
  vle64_v_u64m1 p i vl.

(** [__riscv_vse64_v_u64m1(p + i, v, vl)] and its [f64m1] twin *)
Fixpoint vse64_v_u64m1 (p : buffer) (i : nat) (v : list Z) : option buffer :=
  match v with
  | [] => Some p
  | w :: v' => p <- store64 p i w ;; vse64_v_u64m1 p (S i) v'
  end.

Definition vse64_v_f64m1 (p : buffer) (i : nat) (v : list Z) : option buffer :=
  vse64_v_u64m1 p i v.

(** [__riscv_vxor_vv_u64m1(va, vb, vl)] *)
Definition vxor_vv_u64m1 (va vb : list Z) : list Z :=
  map (fun xy => Z.lxor (fst xy) (snd xy)) (combine va vb).

(** [__riscv_vle32_v_u32m1(p + i, vl)] *)
Fixpoint vle32_v_u32m1 (p : buffer) (i vl : nat) : option (list Z) :=
  match vl with
  | O => Some []
  | S vl' =>
      w <- load32 p i ;;
      ws <- vle32_v_u32m1 p (S i) vl' ;;
      Some (w :: ws)
  end.

(** [__riscv_vsll_vx_u32m1(v, n, vl)], [__riscv_vsrl_vx_u32m1(v, n, vl)] and
    [__riscv_vor_vv_u32m1(va, vb, vl)], for the constant counts of the file. *)
Definition vsll_vx_u32m1 (v : list Z) (n : Z) : list Z :=
  map (fun x => to_uint32 (Z.shiftl x n)) v.

Definition vsrl_vx_u32m1 (v : list Z) (n : Z) : list Z :=
  map (fun x => Z.shiftr x n) v.

Definition vor_vv_u32m1 (va vb : list Z) : list Z :=
  map (fun xy => Z.lor (fst xy) (snd xy)) (combine va vb).

(** [__riscv_vle8_v_u8m1(p + i, vl)], [__riscv_vxor_vx_u8m1(v, x, vl)] and
    [__riscv_vse8_v_u8m1(p + i, v, vl)] *)
Definition vle8_v_u8m1 (p : buffer) (i vl : nat) : option (list byte) :=
  load_bytes p i vl.

Definition vxor_vx_u8m1 (v : list byte) (x : Z) : list byte :=
  map (fun b => byte.of_Z (Z.lxor (byte.unsigned b) x)) v.

Definition vse8_v_u8m1 (p : buffer) (i : nat) (v : list byte) : option buffer :=
  store_bytes p i v.

(** The loop of [riscv_memcpy_rvv], riscv_rvv.h:81-86. *)
Fixpoint memcpy_rvv_loop (fuel : nat) (d64 s64 : buffer) (count i : nat)
  : option buffer :=
  if (i <? count)%nat then
    match fuel with
    | O => None
    | S fuel' =>
        let vl := vsetvl_e64m1 (count - i) in
        vs <- vle64_v_f64m1 s64 i vl ;;
        d64 <- vse64_v_f64m1 d64 i vs ;;
        memcpy_rvv_loop fuel' d64 s64 count (i + vl)
    end
  else Some d64.

(** [riscv_memcpy_rvv], riscv_rvv.h:70-95. *)
Definition riscv_memcpy_rvv (dst src : buffer) (size : nat) : option buffer :=
  let count := (size / 8)%nat in
  dst <- memcpy_rvv_loop count dst src count 0 ;;
  let remainder := (size mod 8)%nat in
  if negb (remainder =? 0)%nat
  then memcpy_at dst (size - remainder) src (size - remainder) remainder
  else Some dst.

(** The loop of [riscv_xor_rvv], riscv_rvv.h:126-133. *)
Fixpoint xor_rvv_loop (fuel : nat) (a64 b64 : buffer) (count i : nat)
  : option buffer :=
  if (i <? count)%nat then
    match fuel with
    | O => None
    | S fuel' =>
        let vl := vsetvl_e64m1 (count - i) in
        va <- vle64_v_u64m1 a64 i vl ;;
        vb <- vle64_v_u64m1 b64 i vl ;;
        let vc := vxor_vv_u64m1 va vb in
        a64 <- vse64_v_u64m1 a64 i vc ;;
        xor_rvv_loop fuel' a64 b64 count (i + vl)
    end
  else Some a64.

(** [riscv_xor_rvv], riscv_rvv.h:120-144; the result is the buffer [a]
    after the call. *)
Definition riscv_xor_rvv (a b : buffer) (size : nat) : option buffer :=
  let count := (size / 8)%nat in
  a <- xor_rvv_loop count a b count 0 ;;
  let remainder := (size mod 8)%nat in
  if negb (remainder =? 0)%nat
  then for_each 0 remainder (fun j a => xor_byte_at a b (size - remainder + j)) a
  else Some a.

(** [riscv_aes_rotate_rvv], riscv_rvv.h:184-200; [count] is a number of
    32-bit elements. *)
Fixpoint aes_rotate_rvv_loop (fuel : nat) (data : buffer) (count i : nat)
  : option buffer :=
  if (i <? count)%nat then
    match fuel with
    | O => None
    | S fuel' =>
        let vl := vsetvl_e32m1 (count - i) in
        v <- vle32_v_u32m1 data i vl ;;
        let shifted_left := vsll_vx_u32m1 v 8 in
        let shifted_right := vsrl_vx_u32m1 v 24 in
        let result := vor_vv_u32m1 shifted_left shifted_right in
        data <- vse32_v_u32m1 data i result ;;
        aes_rotate_rvv_loop fuel' data count (i + vl)
    end
  else Some data.

Definition riscv_aes_rotate_rvv (data : buffer) (count : nat) : option buffer :=
  aes_rotate_rvv_loop count data count 0.

(** [riscv_aes_subbytes_rvv], riscv_rvv.h:203-218. *)
Fixpoint aes_subbytes_rvv_loop (fuel : nat) (state : buffer) (size i : nat)
  : option buffer :=
  if (i <? size)%nat then
    match fuel with
    | O => None
    | S fuel' =>
        let vl := vsetvl_e8m1 (size - i) in
        v <- vle8_v_u8m1 state i vl ;;
        let result := vxor_vx_u8m1 v 0x63 in
        state <- vse8_v_u8m1 state i result ;;
        aes_subbytes_rvv_loop fuel' state size (i + vl)
    end
  else Some state.

Definition riscv_aes_subbytes_rvv (state : buffer) (size : nat) : option buffer :=
  aes_subbytes_rvv_loop size state size 0.

End Hart.
End RVV.

(** ** riscv_rvv.h, the scalar fallback branch *)

Module Scalar.

(** [riscv_memset_rvv], riscv_rvv.h:226-228. *)
Definition riscv_memset_rvv (dst : buffer) (pattern : Z) (size : nat) : option buffer :=
  memset dst 0 (Z.land pattern 0xFF) size.

(** [riscv_memcmp_rvv], riscv_rvv.h:238-240. *)
Definition riscv_memcmp_rvv (a b : buffer) (size : nat) : option Z :=
  memcmp a b size.

(** [riscv_memcpy_rvv], riscv_rvv.h:222-224. *)
Definition riscv_memcpy_rvv (dst src : buffer) (size : nat) : option buffer :=
  memcpy dst src size.

(** [riscv_xor_rvv], riscv_rvv.h:230-236. *)
Definition riscv_xor_rvv (a b : buffer) (size : nat) : option buffer :=
  for_each 0 size (fun i a => xor_byte_at a b i) a.

(** [riscv_aes_rotate_rvv], riscv_rvv.h:242-246:
    [data[i] = (data[i] << 8) | (data[i] >> 24)] on [uint32_t] elements. *)
Definition riscv_aes_rotate_rvv (data : buffer) (count : nat) : option buffer :=
  for_each 0 count (fun i data =>
    x <- load32 data i ;;
    store32 data i (Z.lor (to_uint32 (Z.shiftl x 8)) (Z.shiftr x 24))) data.

(** [riscv_aes_subbytes_rvv], riscv_rvv.h:248-252: [state[i] ^= 0x63]. *)
Definition riscv_aes_subbytes_rvv (state : buffer) (size : nat) : option buffer :=
  for_each 0 size (fun i state =>
    x <- load8 state i ;;
    store8 state i (byte.of_Z (Z.lxor (byte.unsigned x) 0x63))) state.

End Scalar.

(** ** Vocabulary of the statements

    Bytes of a word, sample inputs to run the functions on, and the byte
    counts the loops go through. *)

(** Byte [k] of a word, least significant first. *)
Definition word_byte (x : Z) (k : Z) : Z := (x / 2 ^ (8 * k)) mod 256.

(** The four bytes of a 32-bit word, least significant first. *)
Definition word_bytes (x : Z) : list Z :=
  [word_byte x 0; word_byte x 1; word_byte x 2; word_byte x 3].

(** A table to run the round on: entry [i] is [i * 0x01000193 + 0x63]
    truncated to 32 bits.  The program's own table lives in another file. *)
Definition sample_table : list Z :=
  map (fun i => to_uint32 (Z.of_nat i * 0x01000193 + 0x63)) (seq 0 256).

(** Both tables filled, the decryption side with the same entries reversed. *)
Definition sample_tables : riscv_aes_sbox_t :=
  {| sbox_enc := sample_table; sbox_dec := rev sample_table |}.

(** Number of 64-byte groups the loop of [aligned_memcpy_opt] goes through
    for [chunks] 8-byte words: it starts a new group whenever [i < chunks]. *)
Definition groups (chunks : nat) : nat := ((chunks + 7) / 8)%nat.

(** An 8-byte source with pairwise different bytes. *)
Definition bytes_1_to_8 : buffer :=
  [Byte.x01; Byte.x02; Byte.x03; Byte.x04; Byte.x05; Byte.x06; Byte.x07; Byte.x08].

(** [i] copies of the 32-bit pattern, as bytes. *)
Definition pattern_words (pattern : Z) (i : nat) : list byte :=
  concat (repeat (le_split 4 pattern) i).

(** The four bulk compares of the two headers, one per preprocessor branch. *)
Definition bulk_compares (vsetvl_e64m1 : nat -> nat)
  : list (buffer -> buffer -> nat -> option Z) :=
  [RiscV.riscv_memcmp_fast; Generic.riscv_memcmp_fast;
   RVV.riscv_memcmp_rvv vsetvl_e64m1; Scalar.riscv_memcmp_rvv].

(** What C fixes of the result of comparing the first [n] bytes of [a] and
    [b]: there is one, it is zero on equal ranges, and otherwise it has the
    sign of the difference of the first two bytes that differ. *)
Definition compare_contract (result : option Z) (a b : buffer) (n : nat) : Prop :=
  exists v, result = Some v /\
    (firstn n a = firstn n b -> v = 0) /\
    forall (d : nat) (x y : byte),
      (d < n)%nat -> firstn d a = firstn d b ->
      nth_error a d = Some x -> nth_error b d = Some y -> x <> y ->
      Z.sgn v = Z.sgn (byte.unsigned x - byte.unsigned y).

(** Two 19-byte buffers (two whole words and a 3-byte tail) that agree on
    their first 9 bytes and differ at index 9, inside the second word. *)
Definition sample_a : buffer :=
  repeat Byte.x01 9 ++ [Byte.x07] ++ repeat Byte.x01 9.

Definition sample_b : buffer :=
  repeat Byte.x01 9 ++ [Byte.x09] ++ repeat Byte.x02 9.

(** The word a rotation by [r] makes of the [w]-bit word [x]. *)
Definition rotate_right (w x r : Z) : Z :=
  Z.lor (Z.shiftr x r) ((Z.shiftl x (w - r)) mod 2 ^ w).

(** The [k]-th [w]-byte word of a buffer, and the bytes of the words
    [g 0 .. g (count - 1)] in sequence. *)
Definition word_at (w : nat) (p : buffer) (k : nat) : Z :=
  le_combine (firstn w (skipn (w * k) p)).

Definition words_bytes (w : nat) (g : nat -> Z) (count : nat) : list byte :=
  concat (map (fun k => le_split w (g k)) (seq 0 count)).

(** Bytewise XOR of two byte strings, and of one with a constant. *)
Definition xor_bytes (xs ys : list byte) : list byte :=
  map (fun xy => byte.of_Z (Z.lxor (byte.unsigned (fst xy)) (byte.unsigned (snd xy))))
      (combine xs ys).

Definition xor_const (c : Z) (xs : list byte) : list byte :=
  map (fun b => byte.of_Z (Z.lxor (byte.unsigned b) c)) xs.

(** The first [count] 4-byte groups [b0 b1 b2 b3] of a byte string, each
    turned into [b3 b0 b1 b2]. *)
Fixpoint rotl8_words (count : nat) (bs : list byte) : list byte :=
  match count, bs with
  | S count', b0 :: b1 :: b2 :: b3 :: rest =>
      b3 :: b0 :: b1 :: b2 :: rotl8_words count' rest
  | _, _ => []
  end.

(** State of a buffer whose first [i] words have been written as [g]. *)
Definition written (w : nat) (g : nat -> Z) (d0 : buffer) (i : nat) : buffer :=
  words_bytes w g i ++ skipn (w * i) d0.

(** The bytes [1, 2, ..., n], to run the buffer routines on. *)
Definition counting_bytes (n : nat) : buffer :=
  map (fun i => byte.of_Z (Z.of_nat i + 1)) (seq 0 n).

(** * Properties *)

(** ** Arithmetic helpers *)

Lemma land_ones32 (z : Z) : Z.land z 0xFFFFFFFF = z mod 2 ^ 32.
Proof. change 0xFFFFFFFF with (Z.ones 32). apply Z.land_ones. lia. Qed.

Lemma land_ones8 (z : Z) : Z.land z 0xFF = z mod 2 ^ 8.
Proof. change 0xFF with (Z.ones 8). apply Z.land_ones. lia. Qed.

Lemma lxor_uint32 (a b : Z) : is_uint32 a -> is_uint32 b -> is_uint32 (Z.lxor a b).
Proof.
  unfold is_uint32, UINT32_MOD. intros [Ha Ha'] [Hb Hb'].
  assert (H0 : 0 <= Z.lxor a b) by (apply Z.lxor_nonneg; tauto).
  split; [exact H0|].
  destruct (Z.eq_dec (Z.lxor a b) 0) as [E|E]; [rewrite E; reflexivity|].
  apply Z.log2_lt_pow2; [lia|].
  eapply Z.le_lt_trans; [apply Z.log2_lxor; assumption|].
  apply Z.max_lub_lt.
  - destruct (Z.eq_dec a 0) as [->|]; [reflexivity|apply Z.log2_lt_pow2; lia].
  - destruct (Z.eq_dec b 0) as [->|]; [reflexivity|apply Z.log2_lt_pow2; lia].
Qed.

(** ** riscv_add_uw *)

(** The C branch of the RISC-V build truncates both operands, adds, and
    truncates the sum. *)
Lemma riscv_add_uw_truncates (a b : Z) :
  RiscV.riscv_add_uw a b = ((a mod 2 ^ 32) + (b mod 2 ^ 32)) mod 2 ^ 32.
Proof.
  unfold RiscV.riscv_add_uw, to_uint64, UINT64_MOD.
  rewrite !land_ones32.
  pose proof (Z.mod_pos_bound a (2 ^ 32) ltac:(lia)).
  pose proof (Z.mod_pos_bound b (2 ^ 32) ltac:(lia)).
  rewrite (Z.mod_small (_ + _) (2 ^ 64)) by lia. reflexivity.
Qed.

(** The fallback of the other build keeps the carry of the 32-bit sum. *)
Lemma generic_add_uw_keeps_carry (a b : Z) :
  Generic.riscv_add_uw a b = (a mod 2 ^ 32) + (b mod 2 ^ 32).
Proof.
  unfold Generic.riscv_add_uw, to_uint64, UINT64_MOD.
  rewrite !land_ones32.
  pose proof (Z.mod_pos_bound a (2 ^ 32) ltac:(lia)).
  pose proof (Z.mod_pos_bound b (2 ^ 32) ltac:(lia)).
  apply Z.mod_small. lia.
Qed.

(** X23: the two builds of [riscv_add_uw] agree exactly when the truncated
    operands add up to less than [2 ^ 32]. *)
Lemma add_uw_builds_agree_iff (a b : Z) :
  RiscV.riscv_add_uw a b = Generic.riscv_add_uw a b <->
  (a mod 2 ^ 32) + (b mod 2 ^ 32) < 2 ^ 32.
Proof.
  rewrite riscv_add_uw_truncates, generic_add_uw_keeps_carry.
  pose proof (Z.mod_pos_bound a (2 ^ 32) ltac:(lia)).
  pose proof (Z.mod_pos_bound b (2 ^ 32) ltac:(lia)).
  pose proof (Z.mod_pos_bound (a mod 2 ^ 32 + b mod 2 ^ 32) (2 ^ 32) ltac:(lia)).
  split; intros E.
  - lia.
  - apply Z.mod_small. lia.
Qed.

(** C2: at [a = b = 0xFFFFFFFF] the RISC-V C branch of [riscv_add_uw] returns
    the truncated sum [0xFFFFFFFE], while the non-RISC-V fallback returns
    [0x1FFFFFFFE]: the fallback does not truncate the sum, so the two paths
    differ. *)
Theorem add_uw_fallback_differs :
  RiscV.riscv_add_uw 0xFFFFFFFF 0xFFFFFFFF = 0xFFFFFFFE /\
  Generic.riscv_add_uw 0xFFFFFFFF 0xFFFFFFFF = 0x1FFFFFFFE /\
  Generic.riscv_add_uw 0xFFFFFFFF 0xFFFFFFFF <>
    ((0xFFFFFFFF mod 2 ^ 32) + (0xFFFFFFFF mod 2 ^ 32)) mod 2 ^ 32.
Proof. repeat split. vm_compute. discriminate. Qed.

(** ** riscv_optimal_init_threads *)

(** C5, as stated, fails on the non-RISC-V build: 8 available threads
    give 8, not 6. *)
Lemma optimal_init_threads_generic_8 :
  Generic.riscv_optimal_init_threads 8 <> Z.max 1 (8 * 3 / 4).
Proof. vm_compute. discriminate. Qed.

(** C5 (amended): on the RISC-V build, as long as [available * 3] fits the
    [uint32_t] it is computed in, the advice is [max 1 (available * 3 / 4)],
    which sends 0, 1, 8, 16, 100 to 1, 1, 6, 12, 75; the non-RISC-V fallback
    returns [available] as it is. *)
Theorem optimal_init_threads_advice (available : Z) :
  0 <= available -> available * 3 < UINT32_MOD ->
  RiscV.riscv_optimal_init_threads available = Z.max 1 (available * 3 / 4) /\
  map RiscV.riscv_optimal_init_threads [0; 1; 8; 16; 100] = [1; 1; 6; 12; 75] /\
  Generic.riscv_optimal_init_threads available = available.
Proof.
  intros H0 H1. split; [|split; reflexivity].
  unfold RiscV.riscv_optimal_init_threads, to_uint32.
  rewrite Z.mod_small by lia.
  destruct (Z.ltb_spec 0 (available * 3 / 4)); lia.
Qed.

Lemma optimal_init_threads_advice_witness :
  RiscV.riscv_optimal_init_threads 100 = Z.max 1 (100 * 3 / 4) /\
  map RiscV.riscv_optimal_init_threads [0; 1; 8; 16; 100] = [1; 1; 6; 12; 75] /\
  Generic.riscv_optimal_init_threads 100 = 100.
Proof. apply (optimal_init_threads_advice 100); unfold UINT32_MOD; lia. Defined.

(** Past that range the product wraps: the advice for 1431655766 threads
    is a single thread. *)
Lemma optimal_init_threads_wraps :
  RiscV.riscv_optimal_init_threads 1431655766 = 1.
Proof. reflexivity. Qed.

(** ** get_optimal_cpu_core *)

Lemma to_int_id (z : Z) : is_int z -> to_int z = z.
Proof.
  unfold is_int, INT_MIN, INT_MAX, to_int, UINT32_MOD. intros H.
  rewrite Z.mod_small; lia.
Qed.

(** C6, as stated, fails on the non-RISC-V build: thread 5 is sent to
    core 5 whatever the processor count, not to [5 mod 4 = 1]. *)
Lemma cpu_core_generic_5 :
  Generic.get_optimal_cpu_core 5 <> 5 mod (Z.max 1 4).
Proof. vm_compute. discriminate. Qed.

(** C6 (amended): on the RISC-V build the core index is the C remainder of
    [thread_id] by [max 1 online], whatever [sysconf] reported (zero and
    negative counts included); for [thread_id >= 0] that is
    [thread_id mod (max 1 online)]; thread 5 on 4 processors gets core 1 and
    a reported count of 0 gives core 0.  The non-RISC-V fallback returns
    [thread_id] as it is. *)
Theorem cpu_core_round_robin (online thread_id : Z) :
  is_int thread_id ->
  RiscV.get_optimal_cpu_core online thread_id = Z.rem thread_id (Z.max 1 online) /\
  (0 <= thread_id ->
   RiscV.get_optimal_cpu_core online thread_id = thread_id mod (Z.max 1 online)) /\
  RiscV.get_optimal_cpu_core 4 5 = 1 /\
  RiscV.get_optimal_cpu_core 0 thread_id = 0 /\
  Generic.get_optimal_cpu_core thread_id = thread_id.
Proof.
  intros Hid.
  assert (Hrem : forall n, RiscV.get_optimal_cpu_core n thread_id
                           = Z.rem thread_id (Z.max 1 n)).
  { intros n. unfold RiscV.get_optimal_cpu_core.
    replace (if n <=? 0 then 1 else n) with (Z.max 1 n)
      by (destruct (Z.leb_spec n 0); lia).
    apply to_int_id. unfold is_int, INT_MIN, INT_MAX in *.
    assert (Z.max 1 n <> 0) by lia.
    destruct (Z.le_gt_cases 0 thread_id).
    - pose proof (Z.rem_nonneg thread_id (Z.max 1 n) ltac:(lia) ltac:(lia)).
      pose proof (Z.rem_le thread_id (Z.max 1 n) ltac:(lia) ltac:(lia)). lia.
    - pose proof (Z.rem_nonpos thread_id (Z.max 1 n) ltac:(lia) ltac:(lia)).
      pose proof (Z.rem_opp_l thread_id (Z.max 1 n) ltac:(lia)).
      pose proof (Z.rem_le (- thread_id) (Z.max 1 n) ltac:(lia) ltac:(lia)). lia. }
  repeat split.
  - apply Hrem.
  - intros Hpos. rewrite Hrem. apply Z.rem_mod_nonneg; lia.
  - rewrite Hrem. apply Z.rem_1_r.
Qed.

Lemma cpu_core_round_robin_witness :
  RiscV.get_optimal_cpu_core 4 5 = Z.rem 5 (Z.max 1 4) /\
  (0 <= 5 -> RiscV.get_optimal_cpu_core 4 5 = 5 mod (Z.max 1 4)) /\
  RiscV.get_optimal_cpu_core 4 5 = 1 /\
  RiscV.get_optimal_cpu_core 0 5 = 0 /\
  Generic.get_optimal_cpu_core 5 = 5.
Proof. apply (cpu_core_round_robin 4 5). unfold is_int, INT_MIN, INT_MAX. lia. Defined.

(** ** riscv_rotr32 *)

Lemma uint32_high_bits (x n : Z) : is_uint32 x -> 32 <= n -> Z.testbit x n = false.
Proof.
  unfold is_uint32, UINT32_MOD. intros Hx Hn.
  rewrite <- (Z.mod_small x (2 ^ 32)) by lia.
  apply Z.mod_pow2_bits_high. lia.
Qed.

(** Inside the range C defines, both builds compute the same word. *)
Lemma riscv_rotr32_defined (x r : Z) :
  0 < r < 32 ->
  RiscV.riscv_rotr32 x r = Some (Z.lor (Z.shiftr x r) (to_uint32 (Z.shiftl x (32 - r)))) /\
  Generic.riscv_rotr32 x r = RiscV.riscv_rotr32 x r.
Proof.
  intros Hr. unfold RiscV.riscv_rotr32, Generic.riscv_rotr32, shr_u32, shl_u32, shift_count_ok.
  destruct (Z.leb_spec 0 r); [|lia]. destruct (Z.leb_spec r 32); [|lia].
  destruct (Z.leb_spec 0 (32 - r)); [|lia]. destruct (Z.leb_spec (32 - r) 32); [|lia].
  split; reflexivity.
Qed.

(** The shift pair has a result for the counts [0 .. 32] and for no other. *)
Lemma riscv_rotr32_defined_iff (x r : Z) :
  RiscV.riscv_rotr32 x r <> None <-> 0 <= r <= 32.
Proof.
  unfold RiscV.riscv_rotr32, shr_u32, shl_u32, shift_count_ok.
  destruct (Z.leb_spec 0 r), (Z.leb_spec r 32),
           (Z.leb_spec 0 (32 - r)), (Z.leb_spec (32 - r) 32);
    cbn [andb]; split; intros Hdef; try lia; try contradiction; discriminate.
Qed.


(** The other reading of a shift by the full width, the count reduced
    modulo 32, gives the same word at [r = 0]. *)
Lemma rotr32_zero_count_reduced (x : Z) :
  is_uint32 x ->
  Z.lor (Z.shiftr x 0) (to_uint32 (Z.shiftl x ((32 - 0) mod 32))) = x.
Proof.
  unfold is_uint32, to_uint32. intros Hx.
  change ((32 - 0) mod 32) with 0.
  rewrite Z.shiftr_0_r, Z.shiftl_0_r, Z.mod_small by exact Hx.
  apply Z.lor_diag.
Qed.

(** Bit [n] of the rotated word is bit [(n + r) mod 32] of [x]. *)
Lemma riscv_rotr32_bits (x r y n : Z) :
  is_uint32 x -> 0 < r < 32 -> RiscV.riscv_rotr32 x r = Some y -> 0 <= n ->
  Z.testbit y n = (n <? 32) && Z.testbit x ((n + r) mod 32).
Proof.
  intros Hx Hr Hy Hn.
  rewrite (proj1 (riscv_rotr32_defined x r Hr)) in Hy.
  assert (E : y = Z.lor (Z.shiftr x r) (to_uint32 (Z.shiftl x (32 - r)))) by congruence.
  rewrite E. clear Hy E. unfold to_uint32, UINT32_MOD.
  rewrite Z.lor_spec, Z.shiftr_spec by lia.
  destruct (Z.ltb_spec n 32) as [Hlt|Hge]; cbn [andb].
  - rewrite Z.mod_pow2_bits_low by lia.
    rewrite Z.shiftl_spec by lia.
    destruct (Z.lt_ge_cases (n + r) 32) as [Hs|Hs].
    + rewrite (Z.mod_small (n + r)) by lia.
      rewrite (Z.testbit_neg_r x (n - (32 - r))) by lia. apply orb_false_r.
    + rewrite (uint32_high_bits x (n + r)) by (trivial; lia). cbn [orb].
      f_equal. symmetry.
      replace (n + r) with ((n + r - 32) + 1 * 32) by lia.
      rewrite Z.mod_add by lia. rewrite Z.mod_small; lia.
  - rewrite (uint32_high_bits x (n + r)) by (trivial; lia).
    rewrite Z.mod_pow2_bits_high by lia. reflexivity.
Qed.

Lemma riscv_rotr32_range (x r y : Z) :
  is_uint32 x -> 0 < r < 32 -> RiscV.riscv_rotr32 x r = Some y -> is_uint32 y.
Proof.
  intros Hx Hr Hy. unfold is_uint32, UINT32_MOD.
  assert (E : y = y mod 2 ^ 32).
  { apply Z.bits_inj'. intros n Hn.
    destruct (Z.lt_ge_cases n 32).
    - rewrite Z.mod_pow2_bits_low by lia. reflexivity.
    - rewrite Z.mod_pow2_bits_high by lia.
      rewrite (riscv_rotr32_bits x r y n) by (trivial; lia).
      destruct (Z.ltb_spec n 32); [lia|reflexivity]. }
  rewrite E. apply Z.mod_pos_bound. lia.
Qed.

(** X6: the round trip of the specification, for the counts C defines:
    rotating by [r] and then by [32 - r] gives [x] back. *)
Lemma riscv_rotr32_round_trip (x r : Z) :
  is_uint32 x -> 0 < r < 32 ->
  (y <- RiscV.riscv_rotr32 x r ;; RiscV.riscv_rotr32 y (32 - r)) = Some x.
Proof.
  intros Hx Hr.
  destruct (RiscV.riscv_rotr32 x r) as [y|] eqn:Ey;
    [|rewrite (proj1 (riscv_rotr32_defined x r Hr)) in Ey; discriminate].
  pose proof (riscv_rotr32_range x r y Hx Hr Ey) as Hy.
  destruct (RiscV.riscv_rotr32 y (32 - r)) as [z|] eqn:Ez;
    [|rewrite (proj1 (riscv_rotr32_defined y (32 - r) ltac:(lia))) in Ez; discriminate].
  f_equal. apply Z.bits_inj'. intros n Hn.
  rewrite (riscv_rotr32_bits y (32 - r) z n) by (trivial; lia).
  destruct (Z.ltb_spec n 32) as [Hlt|Hge]; cbn [andb].
  - pose proof (Z.mod_pos_bound (n + (32 - r)) 32 ltac:(lia)) as Hm.
    rewrite (riscv_rotr32_bits x r y _ Hx Hr Ey) by lia.
    destruct (Z.ltb_spec ((n + (32 - r)) mod 32) 32); [|lia]. cbn [andb].
    f_equal. rewrite Z.add_mod_idemp_l by lia.
    replace (n + (32 - r) + r) with (n + 1 * 32) by lia.
    rewrite Z.mod_add by lia. apply Z.mod_small. lia.
  - symmetry. apply uint32_high_bits; trivial.
Qed.

(** ** riscv_aes_enc_round *)

Lemma shift_mask_word_byte (x k : Z) :
  0 <= k -> Z.land (Z.shiftr x (8 * k)) 0xFF = word_byte x k.
Proof.
  intros Hk. unfold word_byte. rewrite land_ones8, Z.shiftr_div_pow2 by lia.
  reflexivity.
Qed.

Lemma table_get_uint32 (t : list Z) (b : Z) :
  table_ok t -> is_uint32 (table_get t b).
Proof.
  intros [Hlen Hall]. unfold table_get.
  destruct (Nat.lt_ge_cases (Z.to_nat b) (length t)) as [Hin|Hout].
  - rewrite Forall_forall in Hall. apply Hall, nth_In, Hin.
  - rewrite nth_overflow by exact Hout. unfold is_uint32, UINT32_MOD. lia.
Qed.

(** The round as one XOR over the list of looked-up bytes. *)
Lemma aes_enc_round_fold (t : riscv_aes_sbox_t) (input round_key : Z) :
  RiscV.riscv_aes_enc_round t input round_key =
  Z.lxor (fold_right Z.lxor 0 (map (table_get (sbox_enc t)) (word_bytes input)))
         round_key.
Proof.
  unfold RiscV.riscv_aes_enc_round.
  change (Z.shiftr input 0) with (Z.shiftr input (8 * 0)).
  change 16 with (8 * 2). change 24 with (8 * 3).
  change (Z.shiftr input 8) with (Z.shiftr input (8 * 1)).
  rewrite !shift_mask_word_byte by lia.
  cbn [word_bytes map fold_right].
  rewrite Z.lxor_0_r, !Z.lxor_assoc. reflexivity.
Qed.

Lemma fold_lxor_permutation (l l' : list Z) :
  Permutation l l' -> fold_right Z.lxor 0 l = fold_right Z.lxor 0 l'.
Proof.
  induction 1 as [|a l l' _ IH|a b l|l l' l'' _ IH1 _ IH2]; cbn [fold_right].
  - reflexivity.
  - now rewrite IH.
  - rewrite <- !Z.lxor_assoc. f_equal. apply Z.lxor_comm.
  - now rewrite IH1.
Qed.

Lemma sample_tables_ok : sbox_ok sample_tables.
Proof.
  assert (H : table_ok sample_table).
  { split; [reflexivity|]. apply Forall_forall. intros v Hv.
    apply in_map_iff in Hv. destruct Hv as [i [<- _]].
    apply Z.mod_pos_bound. reflexivity. }
  split; [exact H|].
  destruct H as [Hl Hf]. split; cbn [sbox_dec sample_tables].
  - rewrite length_rev. exact Hl.
  - apply Forall_rev. exact Hf.
Qed.

(** C8: the round returns the XOR of the four table entries selected by the
    bytes of the input, least significant byte first, XORed with the round
    key, and the result is again a 32-bit word. *)
Theorem aes_enc_round_spec (riscv_aes_tables : riscv_aes_sbox_t) (input round_key : Z) :
  sbox_ok riscv_aes_tables -> is_uint32 input -> is_uint32 round_key ->
  let enc := table_get (sbox_enc riscv_aes_tables) in
  RiscV.riscv_aes_enc_round riscv_aes_tables input round_key =
    Z.lxor (Z.lxor (Z.lxor (Z.lxor (enc (word_byte input 0)) (enc (word_byte input 1)))
                           (enc (word_byte input 2)))
                   (enc (word_byte input 3)))
           round_key /\
  is_uint32 (RiscV.riscv_aes_enc_round riscv_aes_tables input round_key).
Proof.
  intros [Henc _] Hin Hkey enc.
  assert (E : RiscV.riscv_aes_enc_round riscv_aes_tables input round_key =
    Z.lxor (Z.lxor (Z.lxor (Z.lxor (enc (word_byte input 0)) (enc (word_byte input 1)))
                           (enc (word_byte input 2)))
                   (enc (word_byte input 3)))
           round_key).
  { rewrite aes_enc_round_fold. cbn [word_bytes map fold_right]. fold enc.
    rewrite Z.lxor_0_r, !Z.lxor_assoc. reflexivity. }
  split; [exact E|]. rewrite E.
  repeat apply lxor_uint32; trivial; apply table_get_uint32, Henc.
Qed.

Lemma aes_enc_round_spec_witness :
  let enc := table_get (sbox_enc sample_tables) in
  RiscV.riscv_aes_enc_round sample_tables 0x01020304 0xDEADBEEF =
    Z.lxor (Z.lxor (Z.lxor (Z.lxor (enc (word_byte 0x01020304 0))
                                   (enc (word_byte 0x01020304 1)))
                           (enc (word_byte 0x01020304 2)))
                   (enc (word_byte 0x01020304 3)))
           0xDEADBEEF /\
  is_uint32 (RiscV.riscv_aes_enc_round sample_tables 0x01020304 0xDEADBEEF).
Proof.
  apply (aes_enc_round_spec sample_tables 0x01020304 0xDEADBEEF).
  - exact sample_tables_ok.
  - unfold is_uint32, UINT32_MOD. lia.
  - unfold is_uint32, UINT32_MOD. lia.
Defined.

(** C9: two inputs whose four bytes are the same up to order give the same
    round output, for every table and every round key: the lookups are
    combined by XOR alone, so the position of a byte does not matter. *)
Theorem aes_enc_round_byte_order (riscv_aes_tables : riscv_aes_sbox_t) (x y round_key : Z) :
  Permutation (word_bytes x) (word_bytes y) ->
  RiscV.riscv_aes_enc_round riscv_aes_tables x round_key =
  RiscV.riscv_aes_enc_round riscv_aes_tables y round_key.
Proof.
  intros Hperm. rewrite !aes_enc_round_fold. f_equal.
  apply fold_lxor_permutation, Permutation_map, Hperm.
Qed.

(** The byte-swapped input [0x04030201] of [0x01020304]. *)
Lemma aes_enc_round_byte_order_witness :
  Permutation (word_bytes 0x01020304) (word_bytes 0x04030201) /\
  RiscV.riscv_aes_enc_round sample_tables 0x01020304 0xDEADBEEF =
  RiscV.riscv_aes_enc_round sample_tables 0x04030201 0xDEADBEEF.
Proof.
  assert (H : Permutation (word_bytes 0x01020304) (word_bytes 0x04030201))
    by exact (Permutation_rev [4; 3; 2; 1]).
  split; [exact H|].
  apply (aes_enc_round_byte_order sample_tables 0x01020304 0x04030201 0xDEADBEEF H).
Defined.

(** ** Buffers: slices *)

Lemma firstn_add_slice {A : Type} (a b : nat) (l : list A) :
  firstn (a + b) l = firstn a l ++ firstn b (skipn a l).
Proof.
  revert l. induction a as [|a IH]; intros l; [reflexivity|].
  destruct l as [|x l]; cbn [Nat.add firstn skipn app].
  - now rewrite firstn_nil.
  - now rewrite IH.
Qed.

(** Writing [bs] right after an already written prefix [pre]. *)
Lemma store_bytes_append (pre bs d0 : list byte) (off : nat) :
  off = length pre -> (off + length bs <= length d0)%nat ->
  store_bytes (pre ++ skipn off d0) off bs =
  Some ((pre ++ bs) ++ skipn (off + length bs) d0).
Proof.
  intros -> Hd. unfold store_bytes.
  rewrite length_app, length_skipn.
  destruct (Nat.leb_spec (length pre + length bs)
                         (length pre + (length d0 - length pre))); [|lia].
  f_equal. rewrite firstn_app, Nat.sub_diag, firstn_O, app_nil_r.
  rewrite firstn_all2 by lia.
  rewrite skipn_app.
  rewrite (skipn_all2 pre) by lia.
  replace (length pre + length bs - length pre)%nat with (length bs) by lia.
  rewrite skipn_skipn, <- app_assoc. cbn [app]. do 3 f_equal. lia.
Qed.

Lemma load_bytes_in_range (p : buffer) (off width : nat) :
  (off + width <= length p)%nat ->
  load_bytes p off width = Some (firstn width (skipn off p)).
Proof.
  intros H. unfold load_bytes.
  destruct (Nat.leb_spec (off + width) (length p)); [reflexivity|lia].
Qed.

Lemma length_slice (p : buffer) (off width : nat) :
  (off + width <= length p)%nat -> length (firstn width (skipn off p)) = width.
Proof. intros H. rewrite length_firstn, length_skipn. lia. Qed.

Lemma le_split_combine_length (n : nat) (bs : list byte) :
  length bs = n -> le_split n (le_combine bs) = bs.
Proof. intros <-. apply split_le_combine. Qed.

(** ** aligned_memcpy_opt *)

Lemma copy_qword_after_prefix (s d0 : buffer) (k : nat) :
  (8 * k + 8 <= length s)%nat -> (8 * k + 8 <= length d0)%nat ->
  RiscV.copy_qword (firstn (8 * k) s ++ skipn (8 * k) d0) s k =
  Some (firstn (8 * (k + 1)) s ++ skipn (8 * (k + 1)) d0).
Proof.
  intros Hs Hd. unfold RiscV.copy_qword, load64, store64.
  rewrite load_bytes_in_range by lia.
  pose proof (length_slice s (8 * k) 8 Hs) as Hl.
  rewrite (le_split_combine_length 8 _ Hl).
  rewrite store_bytes_append by (rewrite ?length_firstn; lia).
  rewrite Hl, <- firstn_add_slice.
  replace (8 * (k + 1))%nat with (8 * k + 8)%nat by lia. reflexivity.
Qed.

Lemma groups_step (chunks m : nat) : (8 * m < chunks -> m < groups chunks)%nat.
Proof. unfold groups. intros H. apply Nat.div_le_lower_bound; lia. Qed.

Lemma groups_stop (chunks m : nat) :
  (m <= groups chunks)%nat -> ~ (8 * m < chunks)%nat -> m = groups chunks.
Proof.
  unfold groups. intros H1 H2.
  assert ((chunks + 7) / 8 <= m)%nat; [|lia].
  apply Nat.lt_succ_r. apply Nat.Div0.div_lt_upper_bound; lia.
Qed.

Lemma aligned_memcpy_loop_spec (s d0 : buffer) (chunks : nat) :
  (64 * groups chunks <= length s)%nat -> (64 * groups chunks <= length d0)%nat ->
  forall fuel m : nat,
    (groups chunks - m <= fuel)%nat -> (m <= groups chunks)%nat ->
    RiscV.aligned_memcpy_loop fuel (firstn (64 * m) s ++ skipn (64 * m) d0)
                              s chunks (8 * m) =
    Some (firstn (64 * groups chunks) s ++ skipn (64 * groups chunks) d0).
Proof.
  intros Hs Hd. induction fuel as [|fuel IH]; intros m Hfuel Hm;
    cbn [RiscV.aligned_memcpy_loop];
    destruct (Nat.ltb_spec (8 * m) chunks) as [Hlt|Hge];
    try (assert (m = groups chunks) by (apply groups_stop; lia); subst m;
         reflexivity).
  - apply groups_step in Hlt. lia.
  - pose proof (groups_step _ _ Hlt) as Hg.
    replace (64 * m)%nat with (8 * (8 * m))%nat by lia.
    rewrite copy_qword_after_prefix by lia.
    rewrite (copy_qword_after_prefix s d0 (8 * m + 1)) by lia.
    replace (8 * m + 1 + 1)%nat with (8 * m + 2)%nat by lia.
    rewrite (copy_qword_after_prefix s d0 (8 * m + 2)) by lia.
    replace (8 * m + 2 + 1)%nat with (8 * m + 3)%nat by lia.
    rewrite (copy_qword_after_prefix s d0 (8 * m + 3)) by lia.
    replace (8 * m + 3 + 1)%nat with (8 * m + 4)%nat by lia.
    rewrite (copy_qword_after_prefix s d0 (8 * m + 4)) by lia.
    replace (8 * m + 4 + 1)%nat with (8 * m + 5)%nat by lia.
    rewrite (copy_qword_after_prefix s d0 (8 * m + 5)) by lia.
    replace (8 * m + 5 + 1)%nat with (8 * m + 6)%nat by lia.
    rewrite (copy_qword_after_prefix s d0 (8 * m + 6)) by lia.
    replace (8 * m + 6 + 1)%nat with (8 * m + 7)%nat by lia.
    rewrite (copy_qword_after_prefix s d0 (8 * m + 7)) by lia.
    replace (8 * (8 * m + 7 + 1))%nat with (64 * (S m))%nat by lia.
    replace (8 * m + 8)%nat with (8 * S m)%nat by lia.
    apply IH; lia.
Qed.

(** What the RISC-V build copies: whole 64-byte groups, as many as it takes
    to cover [size / 8] words, whatever [size] is; it needs both buffers to
    be that long. *)
Lemma aligned_memcpy_opt_copies_groups (dst src : buffer) (size : nat) :
  let copied := (64 * groups (size / 8))%nat in
  (copied <= length src)%nat -> (copied <= length dst)%nat ->
  RiscV.aligned_memcpy_opt dst src size = Some (firstn copied src ++ skipn copied dst).
Proof.
  intros copied Hs Hd. unfold RiscV.aligned_memcpy_opt.
  pose proof (aligned_memcpy_loop_spec src dst (size / 8) Hs Hd (size / 8)%nat 0%nat)
    as H.
  cbn [Nat.mul firstn skipn app] in H. apply H; [|lia].
  unfold groups. pose proof (Nat.Div0.div_lt_upper_bound (size / 8 + 7) 8 (S (size / 8))).
  lia.
Qed.

(** X22: on the RISC-V build, when [size] is a multiple of 64 and both
    buffers hold that many bytes, [aligned_memcpy_opt] copies exactly [size]
    bytes and leaves the rest of the destination alone. *)
Lemma aligned_memcpy_opt_multiple_of_64 (dst src : buffer) (k : nat) :
  (64 * k <= length src)%nat -> (64 * k <= length dst)%nat ->
  RiscV.aligned_memcpy_opt dst src (64 * k) =
  Some (firstn (64 * k) src ++ skipn (64 * k) dst).
Proof.
  intros Hs Hd.
  assert (E : (64 * groups (64 * k / 8) = 64 * k)%nat).
  { unfold groups. replace (64 * k)%nat with ((8 * k) * 8)%nat by lia.
    rewrite Nat.div_mul by lia.
    replace (8 * k + 7)%nat with (7 + k * 8)%nat by lia.
    rewrite Nat.div_add by lia. cbn. lia. }
  pose proof (aligned_memcpy_opt_copies_groups dst src (64 * k)) as H.
  cbv zeta in H. rewrite E in H. apply H; assumption.
Qed.

(** The non-RISC-V build does what the claim says. *)
Lemma generic_aligned_memcpy_opt_spec (dst src : buffer) (size : nat) :
  (size <= length src)%nat -> (size <= length dst)%nat ->
  Generic.aligned_memcpy_opt dst src size = Some (firstn size src ++ skipn size dst).
Proof.
  intros Hs Hd. unfold Generic.aligned_memcpy_opt, memcpy.
  rewrite load_bytes_in_range by lia. cbn [skipn].
  pose proof (store_bytes_append [] (firstn size src) dst 0 eq_refl) as H.
  cbn [app skipn Nat.add] in H. rewrite H by (rewrite length_firstn; lia).
  rewrite length_firstn, Nat.min_l by lia. reflexivity.
Qed.

(** C3: with [size = 7] the RISC-V [aligned_memcpy_opt] copies nothing (the
    tail shorter than one 8-byte word is dropped), and with [size = 8] on
    64-byte buffers it overwrites all 64 bytes of the destination, 56 of them
    past the requested range; the non-RISC-V build copies exactly the
    requested bytes on both inputs. *)
Theorem aligned_memcpy_opt_tail_and_overrun :
  RiscV.aligned_memcpy_opt (repeat Byte.x00 8) bytes_1_to_8 7 = Some (repeat Byte.x00 8) /\
  Generic.aligned_memcpy_opt (repeat Byte.x00 8) bytes_1_to_8 7 =
    Some (firstn 7 bytes_1_to_8 ++ [Byte.x00]) /\
  RiscV.aligned_memcpy_opt (repeat Byte.x00 64) (repeat Byte.xff 64) 8 =
    Some (repeat Byte.xff 64) /\
  Generic.aligned_memcpy_opt (repeat Byte.x00 64) (repeat Byte.xff 64) 8 =
    Some (repeat Byte.xff 8 ++ repeat Byte.x00 56).
Proof. repeat split; vm_compute; reflexivity. Qed.

(** ** riscv_memset_rvv *)

Lemma vsetvl_vlen_ok (VLEN sew : nat) :
  (0 < sew <= VLEN)%nat -> vsetvl_ok (vsetvl_vlen VLEN sew).
Proof.
  intros H avl Havl. unfold vsetvl_vlen.
  assert (1 <= VLEN / sew)%nat by (apply Nat.div_le_lower_bound; lia). lia.
Qed.

Lemma length_pattern_words (pattern : Z) (i : nat) :
  length (pattern_words pattern i) = (4 * i)%nat.
Proof.
  unfold pattern_words. induction i as [|i IH]; [reflexivity|].
  cbn [repeat concat]. rewrite length_app, IH, length_le_split. lia.
Qed.

Lemma pattern_words_snoc (pattern : Z) (i : nat) :
  pattern_words pattern i ++ le_split 4 pattern = pattern_words pattern (S i).
Proof.
  unfold pattern_words. induction i as [|i IH]; cbn [repeat concat].
  - now rewrite app_nil_r.
  - rewrite <- app_assoc, IH. reflexivity.
Qed.

Lemma vse32_after_prefix (d0 : buffer) (pattern : Z) (vl i : nat) :
  (4 * (i + vl) <= length d0)%nat ->
  RVV.vse32_v_u32m1 (pattern_words pattern i ++ skipn (4 * i) d0) i
                    (RVV.vmv_v_x_u32m1 pattern vl) =
  Some (pattern_words pattern (i + vl) ++ skipn (4 * (i + vl)) d0).
Proof.
  unfold RVV.vmv_v_x_u32m1. revert i.
  induction vl as [|vl IH]; intros i Hlen; cbn [repeat RVV.vse32_v_u32m1].
  - now rewrite Nat.add_0_r.
  - unfold store32.
    rewrite store_bytes_append
      by (rewrite ?length_pattern_words, ?length_le_split; lia).
    rewrite length_le_split, pattern_words_snoc.
    replace (4 * i + 4)%nat with (4 * S i)%nat by lia.
    rewrite IH by lia. do 3 f_equal; lia.
Qed.

Lemma memset_rvv_loop_spec (vsetvl_e32m1 : nat -> nat) (d0 : buffer)
    (pattern : Z) (count : nat) :
  vsetvl_ok vsetvl_e32m1 -> (4 * count <= length d0)%nat ->
  forall fuel i : nat,
    (count - i <= fuel)%nat -> (i <= count)%nat ->
    RVV.memset_rvv_loop vsetvl_e32m1 fuel
      (pattern_words pattern i ++ skipn (4 * i) d0) pattern count i =
    Some (pattern_words pattern count ++ skipn (4 * count) d0).
Proof.
  intros Hvl Hlen. induction fuel as [|fuel IH]; intros i Hfuel Hi;
    cbn [RVV.memset_rvv_loop];
    destruct (Nat.ltb_spec i count) as [Hlt|Hge];
    try (assert (i = count) by lia; subst i; reflexivity).
  - lia.
  - pose proof (Hvl (count - i)%nat ltac:(lia)) as Hgrant.
    rewrite vse32_after_prefix by lia. apply IH; lia.
Qed.

(** What the RVV build writes: [size / 4] copies of the whole 32-bit
    pattern, then [size mod 4] copies of its low byte. *)
Lemma riscv_memset_rvv_spec (vsetvl_e32m1 : nat -> nat) (dst : buffer)
    (pattern : Z) (size : nat) :
  vsetvl_ok vsetvl_e32m1 -> (size <= length dst)%nat ->
  RVV.riscv_memset_rvv vsetvl_e32m1 dst pattern size =
  Some (pattern_words pattern (size / 4)
        ++ repeat (byte.of_Z (Z.land pattern 0xFF)) (size mod 4)
        ++ skipn size dst).
Proof.
  intros Hvl Hlen. unfold RVV.riscv_memset_rvv.
  pose proof (Nat.div_mod_eq size 4) as Hsize.
  pose proof (memset_rvv_loop_spec vsetvl_e32m1 dst pattern (size / 4) Hvl
                ltac:(lia) (size / 4)%nat 0%nat ltac:(lia) ltac:(lia)) as H.
  change (pattern_words pattern 0 ++ skipn (4 * 0) dst) with dst in H.
  rewrite H. clear H.
  destruct (Nat.eqb_spec (size mod 4) 0) as [E|E]; cbn [negb].
  - rewrite E. cbn [repeat app]. do 3 f_equal. lia.
  - unfold memset.
    replace (size - size mod 4)%nat with (4 * (size / 4))%nat by lia.
    rewrite store_bytes_append
      by (rewrite ?length_pattern_words, ?repeat_length; lia).
    rewrite repeat_length, <- app_assoc. do 4 f_equal. lia.
Qed.

(** What the scalar fallback writes: [size] copies of the low byte. *)
Lemma scalar_memset_rvv_spec (dst : buffer) (pattern : Z) (size : nat) :
  (size <= length dst)%nat ->
  Scalar.riscv_memset_rvv dst pattern size =
  Some (repeat (byte.of_Z (Z.land pattern 0xFF)) size ++ skipn size dst).
Proof.
  intros Hlen. unfold Scalar.riscv_memset_rvv, memset.
  pose proof (store_bytes_append [] (repeat (byte.of_Z (Z.land pattern 0xFF)) size)
                dst 0 eq_refl) as H.
  cbn [app skipn Nat.add] in H. rewrite H by (rewrite repeat_length; lia).
  now rewrite repeat_length.
Qed.

(** The two builds write the same bytes when the four bytes of the pattern
    are equal, whatever the hart grants. *)
Lemma memset_rvv_builds_agree (vsetvl_e32m1 : nat -> nat) (dst : buffer)
    (pattern : Z) (size : nat) :
  vsetvl_ok vsetvl_e32m1 -> (size <= length dst)%nat ->
  le_split 4 pattern = repeat (byte.of_Z (Z.land pattern 0xFF)) 4 ->
  RVV.riscv_memset_rvv vsetvl_e32m1 dst pattern size =
  Scalar.riscv_memset_rvv dst pattern size.
Proof.
  intros Hvl Hlen Hpat.
  rewrite riscv_memset_rvv_spec, scalar_memset_rvv_spec by assumption.
  f_equal. rewrite app_assoc. f_equal.
  assert (Hw : forall i, pattern_words pattern i
                         = repeat (byte.of_Z (Z.land pattern 0xFF)) (4 * i)).
  { unfold pattern_words. induction i as [|i IH]; [reflexivity|].
    cbn [repeat concat]. rewrite IH, Hpat, <- repeat_app. f_equal. lia. }
  rewrite Hw, <- repeat_app. f_equal.
  pose proof (Nat.div_mod_eq size 4). lia.
Qed.

(** Conversely, from 4 bytes on, equal results force the four bytes of the
    pattern to be equal: the builds differ on every other pattern. *)
Lemma memset_rvv_builds_agree_only (vsetvl_e32m1 : nat -> nat) (dst : buffer)
    (pattern : Z) (size : nat) :
  vsetvl_ok vsetvl_e32m1 -> (4 <= size <= length dst)%nat ->
  RVV.riscv_memset_rvv vsetvl_e32m1 dst pattern size =
  Scalar.riscv_memset_rvv dst pattern size ->
  le_split 4 pattern = repeat (byte.of_Z (Z.land pattern 0xFF)) 4.
Proof.
  intros Hvl Hsize.
  rewrite riscv_memset_rvv_spec, scalar_memset_rvv_spec by (trivial; lia).
  intros E.
  apply (f_equal (fun r => match r with Some l => firstn 4 l | None => [] end)) in E.
  assert (Hq : exists q, (size / 4 = S q)%nat).
  { destruct (size / 4)%nat as [|q] eqn:Eq; [|eauto].
    apply Nat.div_small_iff in Eq; lia. }
  destruct Hq as [q Hq]. rewrite Hq in E.
  destruct size as [|[|[|[|size]]]]; try lia.
  unfold pattern_words in E. cbn [repeat concat] in E.
  rewrite <- !app_assoc in E.
  rewrite firstn_app, length_le_split in E.
  rewrite firstn_all2 in E by (rewrite length_le_split; lia).
  cbn [Nat.sub firstn] in E. rewrite app_nil_r in E. exact E.
Qed.

(** C1: on a hart with [VLEN = 128], filling 4 bytes with the pattern
    [0x01020304] gives [04 03 02 01] in the RVV build and [04 04 04 04] in
    the scalar fallback build: the two builds do not produce the same bytes. *)
Theorem memset_rvv_builds_differ :
  RVV.riscv_memset_rvv (vsetvl_vlen 128 32) (repeat Byte.x00 4) 0x01020304 4 =
    Some [Byte.x04; Byte.x03; Byte.x02; Byte.x01] /\
  Scalar.riscv_memset_rvv (repeat Byte.x00 4) 0x01020304 4 =
    Some [Byte.x04; Byte.x04; Byte.x04; Byte.x04].
Proof. split; vm_compute; reflexivity. Qed.

(** ** Bulk compare *)

(** A loop whose every body falls through falls through. *)
Lemma for_range_all_next (body : nat -> option flow) (count start : nat) :
  (forall j, (start <= j < start + count)%nat -> body j = Some Next) ->
  for_range start count body = Some Next.
Proof.
  revert start. induction count as [|count IH]; intros start H; cbn [for_range].
  - reflexivity.
  - rewrite H by lia. apply IH. intros j Hj. apply H. lia.
Qed.

(** A loop returns what its first returning iteration returns. *)
Lemma for_range_first_return (body : nat -> option flow) (v : Z) (k count start : nat) :
  (start <= k < start + count)%nat ->
  (forall j, (start <= j < k)%nat -> body j = Some Next) ->
  body k = Some (Return v) ->
  for_range start count body = Some (Return v).
Proof.
  revert start. induction count as [|count IH]; intros start Hk Hnext Hret; [lia|].
  cbn [for_range]. destruct (Nat.eq_dec start k) as [->|Hne].
  - now rewrite Hret.
  - rewrite Hnext by lia. apply IH; [lia| |exact Hret].
    intros j Hj. apply Hnext. lia.
Qed.

Lemma same_prefix_nth_error (a b : buffer) (t j : nat) :
  firstn t a = firstn t b -> (j < t)%nat -> nth_error a j = nth_error b j.
Proof.
  intros H Hj.
  pose proof (nth_error_firstn t a j) as Ha.
  pose proof (nth_error_firstn t b j) as Hb.
  destruct (Nat.ltb_spec j t); [|lia]. congruence.
Qed.

Lemma in_range_nth_error (p : buffer) (j : nat) :
  (j < length p)%nat -> exists x, nth_error p j = Some x.
Proof.
  intros H. destruct (nth_error p j) as [x|] eqn:E; [now exists x|].
  apply nth_error_None in E. lia.
Qed.

(** One step of a byte scan, inside and at the end of the common prefix. *)
Lemma cmp_byte_same (a b : buffer) (t j : nat) :
  firstn t a = firstn t b -> (t <= length a)%nat -> (j < t)%nat ->
  cmp_byte a b j = Some Next.
Proof.
  intros H Hlen Hj. unfold cmp_byte, load8.
  rewrite <- (same_prefix_nth_error a b t j H Hj).
  destruct (in_range_nth_error a j ltac:(lia)) as [x ->].
  now rewrite Z.eqb_refl.
Qed.

Lemma cmp_byte_diff (a b : buffer) (j : nat) (x y : byte) :
  nth_error a j = Some x -> nth_error b j = Some y -> x <> y ->
  cmp_byte a b j = Some (Return (byte.unsigned x - byte.unsigned y)).
Proof.
  intros Ha Hb Hne. unfold cmp_byte, load8. rewrite Ha, Hb.
  destruct (Z.eqb_spec (byte.unsigned x) (byte.unsigned y)) as [E|E].
  - apply byte.unsigned_inj in E. contradiction.
  - reflexivity.
Qed.

(** The model of the C library's [memcmp]: zero on equal ranges, else the
    difference of the first bytes that differ (of which C fixes the sign). *)
Lemma memcmp_same (a b : buffer) (n : nat) :
  firstn n a = firstn n b -> (n <= length a)%nat -> memcmp a b n = Some 0.
Proof.
  intros H Hlen. unfold memcmp.
  rewrite for_range_all_next; [reflexivity|].
  intros j Hj. apply (cmp_byte_same a b n); trivial; lia.
Qed.

Lemma memcmp_first_diff (a b : buffer) (n d : nat) (x y : byte) :
  (d < n)%nat -> (n <= length a)%nat -> firstn d a = firstn d b ->
  nth_error a d = Some x -> nth_error b d = Some y -> x <> y ->
  memcmp a b n = Some (byte.unsigned x - byte.unsigned y).
Proof.
  intros Hd Hlen Hpre Ha Hb Hne. unfold memcmp.
  rewrite (for_range_first_return _ (byte.unsigned x - byte.unsigned y) d);
    [reflexivity|lia| |now apply cmp_byte_diff].
  intros j Hj. apply (cmp_byte_same a b d); trivial; lia.
Qed.

(** Two 64-bit loads are equal exactly when the eight bytes under them are. *)
Lemma slice_same (a b : buffer) (t off w : nat) :
  firstn t a = firstn t b -> (off + w <= t)%nat ->
  firstn w (skipn off a) = firstn w (skipn off b).
Proof.
  intros H Hle. rewrite !firstn_skipn_comm.
  replace (firstn (off + w) a) with (firstn (off + w) (firstn t a))
    by (rewrite firstn_firstn; f_equal; lia).
  replace (firstn (off + w) b) with (firstn (off + w) (firstn t b))
    by (rewrite firstn_firstn; f_equal; lia).
  now rewrite H.
Qed.

Lemma load64_same (a b : buffer) (t q : nat) :
  firstn t a = firstn t b -> (8 * q + 8 <= t)%nat ->
  (t <= length a)%nat -> (t <= length b)%nat ->
  exists w, load64 a q = Some w /\ load64 b q = Some w.
Proof.
  intros H Hq Ha Hb. unfold load64.
  rewrite !load_bytes_in_range by lia.
  rewrite (slice_same a b t (8 * q) 8 H Hq). eauto.
Qed.

Lemma load64_diff (a b : buffer) (q d : nat) (x y : byte) :
  (8 * q <= d < 8 * q + 8)%nat ->
  (8 * q + 8 <= length a)%nat -> (8 * q + 8 <= length b)%nat ->
  nth_error a d = Some x -> nth_error b d = Some y -> x <> y ->
  exists wa wb, load64 a q = Some wa /\ load64 b q = Some wb /\ wa <> wb.
Proof.
  intros Hd Hla Hlb Ha Hb Hne. unfold load64.
  rewrite !load_bytes_in_range by lia.
  do 2 eexists. repeat split. intros E.
  apply le_combine_inj in E; [|rewrite !length_slice; lia].
  apply (f_equal (fun l => nth_error l (d - 8 * q))) in E.
  rewrite !nth_error_firstn, !nth_error_skipn in E.
  destruct (Nat.ltb_spec (d - 8 * q) 8); [|lia].
  replace (8 * q + (d - 8 * q))%nat with d in E by lia. congruence.
Qed.

(** [riscv_memcmp_fast], RISC-V build: the word loop finds the word that
    holds the first difference, the byte loop the byte. *)
Lemma riscv_memcmp_fast_same (a b : buffer) (n : nat) :
  firstn n a = firstn n b -> (n <= length a)%nat -> (n <= length b)%nat ->
  RiscV.riscv_memcmp_fast a b n = Some 0.
Proof.
  intros H Ha Hb. unfold RiscV.riscv_memcmp_fast.
  pose proof (Nat.div_mod_eq n 8) as Hn.
  rewrite for_range_all_next.
  - destruct (Nat.ltb_spec 0 (n mod 8)); [|reflexivity].
    rewrite for_range_all_next; [reflexivity|].
    intros j Hj. apply (cmp_byte_same a b n); trivial; lia.
  - intros i Hi.
    destruct (load64_same a b n i H ltac:(lia) Ha Hb) as [w [-> ->]].
    now rewrite Z.eqb_refl.
Qed.

Lemma riscv_memcmp_fast_first_diff (a b : buffer) (n d : nat) (x y : byte) :
  (d < n)%nat -> (n <= length a)%nat -> (n <= length b)%nat ->
  firstn d a = firstn d b ->
  nth_error a d = Some x -> nth_error b d = Some y -> x <> y ->
  RiscV.riscv_memcmp_fast a b n = Some (byte.unsigned x - byte.unsigned y).
Proof.
  intros Hd Hla Hlb Hpre Ha Hb Hne. unfold RiscV.riscv_memcmp_fast.
  pose proof (Nat.div_mod_eq n 8) as Hn.
  pose proof (Nat.div_mod_eq d 8) as Hdq.
  pose proof (Nat.mod_upper_bound d 8 ltac:(lia)) as Hdr.
  pose proof (Nat.mod_upper_bound n 8 ltac:(lia)) as Hnr.
  assert (Hwords : forall i, (8 * i + 8 <= d)%nat ->
            (a0 <- load64 a i ;; b0 <- load64 b i ;;
             if a0 =? b0 then Some Next else RiscV.memcmp_fast_qword a b n i)
            = Some Next).
  { intros i Hi.
    destruct (load64_same a b d i Hpre Hi ltac:(lia) ltac:(lia)) as [w [-> ->]].
    now rewrite Z.eqb_refl. }
  destruct (Nat.lt_ge_cases d (8 * (n / 8))) as [Hword|Htail].
  - (* the difference lies in a whole word *)
    rewrite (for_range_first_return _ (byte.unsigned x - byte.unsigned y) (d / 8));
      [reflexivity| | |].
    + split; [lia|]. apply Nat.Div0.div_lt_upper_bound. lia.
    + intros i Hi. apply Hwords. lia.
    + assert (Hq : (8 * (d / 8) + 8 <= n)%nat).
      { assert (d / 8 < n / 8)%nat by (apply Nat.Div0.div_lt_upper_bound; lia). lia. }
      destruct (load64_diff a b (d / 8) d x y ltac:(lia) ltac:(lia) ltac:(lia)
                  Ha Hb Hne) as [wa [wb [-> [-> Hw]]]].
      destruct (Z.eqb_spec wa wb); [contradiction|].
      unfold RiscV.memcmp_fast_qword.
      apply (for_range_first_return _ _ d); [lia| |now apply cmp_byte_diff].
      intros j Hj. apply (cmp_byte_same a b d); trivial; lia.
  - (* the difference lies in the tail *)
    rewrite for_range_all_next by (intros i Hi; apply Hwords; lia).
    destruct (Nat.ltb_spec 0 (n mod 8)); [|lia].
    rewrite (for_range_first_return _ (byte.unsigned x - byte.unsigned y)
               (d - n / 8 * 8));
      [reflexivity|lia| |].
    + intros j Hj. apply (cmp_byte_same a b d); trivial; lia.
    + replace (n / 8 * 8 + (d - n / 8 * 8))%nat with d by lia.
      now apply cmp_byte_diff.
Qed.

(** [riscv_memcmp_rvv], RVV build: a vector step raises its mask exactly
    when the first difference lies in the words it loaded. *)
Lemma vle64_same (a b : buffer) (t vl i : nat) :
  firstn t a = firstn t b -> (8 * (i + vl) <= t)%nat ->
  (t <= length a)%nat -> (t <= length b)%nat ->
  exists v, RVV.vle64_v_u64m1 a i vl = Some v /\ RVV.vle64_v_u64m1 b i vl = Some v.
Proof.
  intros H. revert i. induction vl as [|vl IH]; intros i Hi Ha Hb;
    cbn [RVV.vle64_v_u64m1].
  - eauto.
  - destruct (load64_same a b t i H ltac:(lia) Ha Hb) as [w [-> ->]].
    destruct (IH (S i) ltac:(lia) Ha Hb) as [v [-> ->]]. eauto.
Qed.

Lemma vle64_elements (p : buffer) (vl i : nat) :
  (8 * (i + vl) <= length p)%nat ->
  exists v, RVV.vle64_v_u64m1 p i vl = Some v /\
            forall k, (k < vl)%nat -> nth_error v k = load64 p (i + k).
Proof.
  revert i. induction vl as [|vl IH]; intros i Hi; cbn [RVV.vle64_v_u64m1].
  - exists []. split; [reflexivity|]. intros k Hk. lia.
  - unfold load64 at 1. rewrite load_bytes_in_range by lia.
    destruct (IH (S i) ltac:(lia)) as [v [-> Hv]].
    eexists. split; [reflexivity|].
    intros [|k] Hk; cbn [nth_error].
    + rewrite Nat.add_0_r. unfold load64. now rewrite load_bytes_in_range by lia.
    + rewrite Hv by lia. f_equal. lia.
Qed.

Lemma vcpop_same (v : list Z) : RVV.vcpop_m_b64 (RVV.vmsne_vv_u64m1_b64 v v) = 0%nat.
Proof.
  unfold RVV.vcpop_m_b64, RVV.vmsne_vv_u64m1_b64.
  induction v as [|w v IH]; [reflexivity|].
  cbn [combine map fst snd count_occ]. rewrite Z.eqb_refl. cbn [negb].
  destruct (bool_dec false true); [discriminate|exact IH].
Qed.

Lemma vcpop_diff (va vb : list Z) (k : nat) (wa wb : Z) :
  nth_error va k = Some wa -> nth_error vb k = Some wb -> wa <> wb ->
  (0 < RVV.vcpop_m_b64 (RVV.vmsne_vv_u64m1_b64 va vb))%nat.
Proof.
  unfold RVV.vcpop_m_b64, RVV.vmsne_vv_u64m1_b64.
  revert vb k. induction va as [|a va IH]; intros vb k Ha Hb Hne.
  - destruct k; discriminate.
  - destruct vb as [|b vb]; [destruct k; discriminate|].
    cbn [combine map fst snd count_occ].
    destruct k as [|k]; cbn [nth_error] in Ha, Hb.
    + injection Ha as ->. injection Hb as ->.
      destruct (Z.eqb_spec wa wb); [contradiction|]. cbn [negb].
      destruct (bool_dec true true); [lia|contradiction].
    + specialize (IH vb k Ha Hb Hne).
      destruct (bool_dec (negb (a =? b)) true); lia.
Qed.

Section RvvCompare.
Variable vsetvl_e64m1 : nat -> nat.
Hypothesis vsetvl_grants : vsetvl_ok vsetvl_e64m1.
Variables a b : buffer.

Lemma memcmp_rvv_loop_same (count : nat) :
  firstn (8 * count) a = firstn (8 * count) b ->
  (8 * count <= length a)%nat -> (8 * count <= length b)%nat ->
  forall fuel i : nat,
    (count - i <= fuel)%nat ->
    RVV.memcmp_rvv_loop vsetvl_e64m1 fuel a b count i = Some false.
Proof.
  intros H Ha Hb. induction fuel as [|fuel IH]; intros i Hfuel;
    cbn [RVV.memcmp_rvv_loop];
    destruct (Nat.ltb_spec i count) as [Hlt|Hge]; try reflexivity.
  - lia.
  - pose proof (vsetvl_grants (count - i)%nat ltac:(lia)) as Hvl.
    destruct (vle64_same a b (8 * count) (vsetvl_e64m1 (count - i)) i H
                ltac:(lia) Ha Hb) as [v [-> ->]].
    rewrite vcpop_same. cbn. apply IH. lia.
Qed.

Lemma memcmp_rvv_loop_diff (count d : nat) (x y : byte) :
  (d < 8 * count)%nat ->
  (8 * count <= length a)%nat -> (8 * count <= length b)%nat ->
  firstn d a = firstn d b ->
  nth_error a d = Some x -> nth_error b d = Some y -> x <> y ->
  forall fuel i : nat,
    (count - i <= fuel)%nat -> (8 * i <= d)%nat ->
    RVV.memcmp_rvv_loop vsetvl_e64m1 fuel a b count i = Some true.
Proof.
  intros Hd Hla Hlb Hpre Ha Hb Hne.
  pose proof (Nat.div_mod_eq d 8) as Hdq.
  pose proof (Nat.mod_upper_bound d 8 ltac:(lia)) as Hdr.
  induction fuel as [|fuel IH]; intros i Hfuel Hi;
    cbn [RVV.memcmp_rvv_loop];
    (destruct (Nat.ltb_spec i count) as [Hlt|Hge]; [|lia]).
  - lia.
  - pose proof (vsetvl_grants (count - i)%nat ltac:(lia)) as Hvl.
    set (vl := vsetvl_e64m1 (count - i)) in *.
    destruct (Nat.lt_ge_cases d (8 * (i + vl))) as [Hin|Hout].
    + destruct (vle64_elements a vl i ltac:(lia)) as [va [-> Hva]].
      destruct (vle64_elements b vl i ltac:(lia)) as [vb [-> Hvb]].
      destruct (load64_diff a b (d / 8) d x y ltac:(lia) ltac:(lia) ltac:(lia)
                  Ha Hb Hne) as [wa [wb [Ewa [Ewb Hw]]]].
      assert (Hk : (d / 8 - i < vl)%nat) by lia.
      specialize (Hva _ Hk). specialize (Hvb _ Hk).
      replace (i + (d / 8 - i))%nat with (d / 8)%nat in Hva, Hvb by lia.
      rewrite Ewa in Hva. rewrite Ewb in Hvb.
      pose proof (vcpop_diff va vb _ wa wb Hva Hvb Hw) as Hpop.
      destruct (Nat.ltb_spec 0 (RVV.vcpop_m_b64 (RVV.vmsne_vv_u64m1_b64 va vb)));
        [reflexivity|lia].
    + destruct (vle64_same a b d vl i Hpre Hout ltac:(lia) ltac:(lia))
        as [v [-> ->]].
      rewrite vcpop_same. cbn. apply IH; lia.
Qed.

Lemma riscv_memcmp_rvv_same (n : nat) :
  firstn n a = firstn n b -> (n <= length a)%nat -> (n <= length b)%nat ->
  RVV.riscv_memcmp_rvv vsetvl_e64m1 a b n = Some 0.
Proof.
  intros H Ha Hb. unfold RVV.riscv_memcmp_rvv.
  pose proof (Nat.div_mod_eq n 8) as Hn.
  rewrite memcmp_rvv_loop_same; try lia.
  - destruct (Nat.eqb_spec (n mod 8) 0); cbn [negb]; [reflexivity|].
    rewrite for_range_all_next; [reflexivity|].
    intros j Hj. apply (cmp_byte_same a b n); trivial; lia.
  - pose proof (slice_same a b n 0 (8 * (n / 8)) H ltac:(lia)) as E.
    exact E.
Qed.

Lemma riscv_memcmp_rvv_first_diff (n d : nat) (x y : byte) :
  (d < n)%nat -> (n <= length a)%nat -> (n <= length b)%nat ->
  firstn d a = firstn d b ->
  nth_error a d = Some x -> nth_error b d = Some y -> x <> y ->
  RVV.riscv_memcmp_rvv vsetvl_e64m1 a b n = Some (byte.unsigned x - byte.unsigned y).
Proof.
  intros Hd Hla Hlb Hpre Ha Hb Hne. unfold RVV.riscv_memcmp_rvv.
  pose proof (Nat.div_mod_eq n 8) as Hn.
  pose proof (Nat.mod_upper_bound n 8 ltac:(lia)) as Hnr.
  destruct (Nat.lt_ge_cases d (8 * (n / 8))) as [Hword|Htail].
  - rewrite (memcmp_rvv_loop_diff (n / 8) d x y); trivial; try lia.
    now apply (memcmp_first_diff a b n d).
  - rewrite memcmp_rvv_loop_same; try lia.
    + destruct (Nat.eqb_spec (n mod 8) 0); cbn [negb]; [lia|].
      rewrite (for_range_first_return _ (byte.unsigned x - byte.unsigned y)
                 (d - 8 * (n / 8)));
        [reflexivity|lia| |].
      * intros j Hj. apply (cmp_byte_same a b d); trivial; lia.
      * replace (n - n mod 8 + (d - 8 * (n / 8)))%nat with d by lia.
        now apply cmp_byte_diff.
    + exact (slice_same a b d 0 (8 * (n / 8)) Hpre ltac:(lia)).
Qed.

End RvvCompare.

(** C4: each bulk compare ([riscv_memcmp_fast] and [riscv_memcmp_rvv], in
    both of their branches and for every vector length a hart may grant)
    returns exactly 0 on a buffer compared with itself, and on two buffers
    whose first differing byte is at index [i < n] it returns a value with
    the sign of [a[i] - b[i]]. *)
Theorem bulk_compare_sign (vsetvl_e64m1 : nat -> nat) (a : buffer) (n : nat) :
  vsetvl_ok vsetvl_e64m1 -> (n <= length a)%nat ->
  forall compare, In compare (bulk_compares vsetvl_e64m1) ->
    compare a a n = Some 0 /\
    forall (b : buffer) (i : nat) (x y : byte),
      (n <= length b)%nat -> (i < n)%nat -> firstn i a = firstn i b ->
      nth_error a i = Some x -> nth_error b i = Some y -> x <> y ->
      exists v, compare a b n = Some v /\
                Z.sgn v = Z.sgn (byte.unsigned x - byte.unsigned y).
Proof.
  intros Hvl Ha compare Hin.
  assert (Hexact :
    compare a a n = Some 0 /\
    forall (b : buffer) (i : nat) (x y : byte),
      (n <= length b)%nat -> (i < n)%nat -> firstn i a = firstn i b ->
      nth_error a i = Some x -> nth_error b i = Some y -> x <> y ->
      compare a b n = Some (byte.unsigned x - byte.unsigned y)).
  { cbn [bulk_compares In] in Hin.
    destruct Hin as [<-|[<-|[<-|[<-|[]]]]]; (split; [|intros b i x y Hb Hi Hpre Hx Hy Hne]).
    - now apply riscv_memcmp_fast_same.
    - now apply (riscv_memcmp_fast_first_diff a b n i).
    - now apply memcmp_same.
    - now apply (memcmp_first_diff a b n i).
    - now apply riscv_memcmp_rvv_same.
    - now apply (riscv_memcmp_rvv_first_diff vsetvl_e64m1 Hvl a b n i).
    - now apply memcmp_same.
    - now apply (memcmp_first_diff a b n i). }
  destruct Hexact as [Hsame Hdiff]. split; [exact Hsame|].
  intros b i x y Hb Hi Hpre Hx Hy Hne.
  eexists. split; [apply (Hdiff b i x y); assumption|reflexivity].
Qed.

(** Two 19-byte buffers that first differ at index 9 (7 against 9), compared
    by the RVV build on a hart with [VLEN = 128]. *)
Lemma bulk_compare_sign_witness :
  RVV.riscv_memcmp_rvv (vsetvl_vlen 128 64) sample_a sample_a 19 = Some 0 /\
  exists v, RVV.riscv_memcmp_rvv (vsetvl_vlen 128 64) sample_a sample_b 19 = Some v /\
            Z.sgn v = Z.sgn (byte.unsigned Byte.x07 - byte.unsigned Byte.x09).
Proof.
  assert (Hvl : vsetvl_ok (vsetvl_vlen 128 64)).
  { intros avl Havl. unfold vsetvl_vlen. change (128 / 64)%nat with 2%nat. lia. }
  assert (Hlen : (19 <= length sample_a)%nat) by (vm_compute; lia).
  assert (Hin : In (RVV.riscv_memcmp_rvv (vsetvl_vlen 128 64))
                   (bulk_compares (vsetvl_vlen 128 64)))
    by (right; right; left; reflexivity).
  destruct (bulk_compare_sign (vsetvl_vlen 128 64) sample_a 19 Hvl Hlen _ Hin)
    as [Hsame Hdiff].
  split; [exact Hsame|].
  apply (Hdiff sample_b 9%nat Byte.x07 Byte.x09).
  - vm_compute. lia.
  - lia.
  - reflexivity.
  - reflexivity.
  - reflexivity.
  - discriminate.
Defined.

(** * Further properties of the four headers *)

(** ** Rotations of any width *)

Section Rotation.
Variable w : Z.
Hypothesis w_pos : 0 < w.

Lemma word_high_bits (x n : Z) : 0 <= x < 2 ^ w -> w <= n -> Z.testbit x n = false.
Proof.
  intros Hx Hn. rewrite <- (Z.mod_small x (2 ^ w)) by lia.
  apply Z.mod_pow2_bits_high. lia.
Qed.

Lemma word_of_bits (y : Z) :
  (forall n, w <= n -> Z.testbit y n = false) -> 0 <= y < 2 ^ w.
Proof.
  intros H.
  assert (E : y = y mod 2 ^ w).
  { apply Z.bits_inj'. intros n Hn.
    destruct (Z.lt_ge_cases n w).
    - rewrite Z.mod_pow2_bits_low by lia. reflexivity.
    - rewrite Z.mod_pow2_bits_high by lia. apply H. lia. }
  rewrite E. apply Z.mod_pos_bound. lia.
Qed.

Lemma rotate_right_bits (x r n : Z) :
  0 <= x < 2 ^ w -> 0 < r < w -> 0 <= n ->
  Z.testbit (rotate_right w x r) n = (n <? w) && Z.testbit x ((n + r) mod w).
Proof.
  intros Hx Hr Hn. unfold rotate_right.
  rewrite Z.lor_spec, Z.shiftr_spec by lia.
  destruct (Z.ltb_spec n w) as [Hlt|Hge]; cbn [andb].
  - rewrite Z.mod_pow2_bits_low by lia.
    rewrite Z.shiftl_spec by lia.
    destruct (Z.lt_ge_cases (n + r) w) as [Hs|Hs].
    + rewrite (Z.mod_small (n + r)) by lia.
      rewrite (Z.testbit_neg_r x (n - (w - r))) by lia. apply orb_false_r.
    + rewrite (word_high_bits x (n + r)) by lia. cbn [orb].
      f_equal. symmetry.
      replace (n + r) with ((n + r - w) + 1 * w) by lia.
      rewrite Z.mod_add by lia. rewrite Z.mod_small; lia.
  - rewrite (word_high_bits x (n + r)) by lia.
    rewrite Z.mod_pow2_bits_high by lia. reflexivity.
Qed.

Lemma rotate_right_range (x r : Z) :
  0 <= x < 2 ^ w -> 0 < r < w -> 0 <= rotate_right w x r < 2 ^ w.
Proof.
  intros Hx Hr. apply word_of_bits. intros n Hn.
  rewrite rotate_right_bits by lia.
  destruct (Z.ltb_spec n w); [lia|reflexivity].
Qed.

Lemma rotate_right_compose (x r s : Z) :
  0 <= x < 2 ^ w -> 0 < r -> 0 < s -> r + s < w ->
  rotate_right w (rotate_right w x r) s = rotate_right w x (r + s).
Proof.
  intros Hx Hr Hs Hrs. apply Z.bits_inj'. intros n Hn.
  rewrite (rotate_right_bits (rotate_right w x r) s n)
    by (try apply rotate_right_range; lia).
  rewrite (rotate_right_bits x (r + s) n) by lia.
  destruct (Z.ltb_spec n w) as [Hlt|Hge]; cbn [andb]; [|reflexivity].
  pose proof (Z.mod_pos_bound (n + s) w ltac:(lia)).
  rewrite rotate_right_bits by lia.
  destruct (Z.ltb_spec ((n + s) mod w) w); [|lia]. cbn [andb].
  f_equal. rewrite Z.add_mod_idemp_l by lia. f_equal. lia.
Qed.

Lemma rotate_right_back (x r : Z) :
  0 <= x < 2 ^ w -> 0 < r < w ->
  rotate_right w (rotate_right w x r) (w - r) = x.
Proof.
  intros Hx Hr. apply Z.bits_inj'. intros n Hn.
  rewrite rotate_right_bits by (try apply rotate_right_range; lia).
  destruct (Z.ltb_spec n w) as [Hlt|Hge]; cbn [andb].
  - pose proof (Z.mod_pos_bound (n + (w - r)) w ltac:(lia)).
    rewrite rotate_right_bits by lia.
    destruct (Z.ltb_spec ((n + (w - r)) mod w) w); [|lia]. cbn [andb].
    f_equal. rewrite Z.add_mod_idemp_l by lia.
    replace (n + (w - r) + r) with (n + 1 * w) by lia.
    rewrite Z.mod_add by lia. apply Z.mod_small. lia.
  - symmetry. apply word_high_bits; lia.
Qed.

End Rotation.

Lemma riscv_rotr32_rotate (x r : Z) :
  0 < r < 32 ->
  RiscV.riscv_rotr32 x r = Some (rotate_right 32 x r) /\
  Generic.riscv_rotr32 x r = Some (rotate_right 32 x r).
Proof.
  intros Hr. destruct (riscv_rotr32_defined x r Hr) as [E1 E2].
  rewrite E2, E1. split; reflexivity.
Qed.

Lemma riscv_rotr64_rotate (x r : Z) :
  0 < r < 64 ->
  RiscV.riscv_rotr64 x r = Some (rotate_right 64 x r) /\
  Generic.riscv_rotr64 x r = Some (rotate_right 64 x r).
Proof.
  intros Hr. unfold RiscV.riscv_rotr64, Generic.riscv_rotr64, shr_u64, shl_u64,
    shift_count_ok.
  destruct (Z.leb_spec 0 r); [|lia]. destruct (Z.leb_spec r 64); [|lia].
  destruct (Z.leb_spec 0 (64 - r)); [|lia]. destruct (Z.leb_spec (64 - r) 64); [|lia].
  split; reflexivity.
Qed.



(** X1: [riscv_rotr64] by [0 < r < 64] is a rotation in both branches: the
    result is a 64-bit word whose bit [n] is bit [(n + r) mod 64] of [x]. *)
Theorem riscv_rotr64_is_rotation (x r : Z) :
  is_uint64 x -> 0 < r < 64 ->
  exists y, RiscV.riscv_rotr64 x r = Some y /\ Generic.riscv_rotr64 x r = Some y /\
            is_uint64 y /\
            forall n, 0 <= n < 64 -> Z.testbit y n = Z.testbit x ((n + r) mod 64).
Proof.
  intros Hx Hr. destruct (riscv_rotr64_rotate x r Hr) as [E1 E2].
  exists (rotate_right 64 x r). repeat split; trivial.
  - apply rotate_right_range; trivial; lia.
  - apply rotate_right_range; trivial; lia.
  - intros n Hn. rewrite rotate_right_bits by (trivial; lia).
    destruct (Z.ltb_spec n 64); [reflexivity|lia].
Qed.

Lemma riscv_rotr64_is_rotation_witness :
  exists y, RiscV.riscv_rotr64 0x0123456789ABCDEF 8 = Some y /\
            Generic.riscv_rotr64 0x0123456789ABCDEF 8 = Some y /\
            is_uint64 y /\
            forall n, 0 <= n < 64 ->
              Z.testbit y n = Z.testbit 0x0123456789ABCDEF ((n + 8) mod 64).
Proof.
  apply (riscv_rotr64_is_rotation 0x0123456789ABCDEF 8).
  - unfold is_uint64, UINT64_MOD. lia.
  - lia.
Defined.

(** X2: rotating a 64-bit word by [r] and then by [64 - r] gives it back. *)
Theorem riscv_rotr64_round_trip (x r : Z) :
  is_uint64 x -> 0 < r < 64 ->
  (y <- RiscV.riscv_rotr64 x r ;; RiscV.riscv_rotr64 y (64 - r)) = Some x /\
  (y <- Generic.riscv_rotr64 x r ;; Generic.riscv_rotr64 y (64 - r)) = Some x.
Proof.
  intros Hx Hr.
  destruct (riscv_rotr64_rotate x r Hr) as [-> ->].
  destruct (riscv_rotr64_rotate (rotate_right 64 x r) (64 - r) ltac:(lia)) as [-> ->].
  rewrite rotate_right_back by (trivial; lia). split; reflexivity.
Qed.

Lemma riscv_rotr64_round_trip_witness :
  (y <- RiscV.riscv_rotr64 0x0123456789ABCDEF 8 ;; RiscV.riscv_rotr64 y (64 - 8))
    = Some 0x0123456789ABCDEF /\
  (y <- Generic.riscv_rotr64 0x0123456789ABCDEF 8 ;; Generic.riscv_rotr64 y (64 - 8))
    = Some 0x0123456789ABCDEF.
Proof.
  apply (riscv_rotr64_round_trip 0x0123456789ABCDEF 8).
  - unfold is_uint64, UINT64_MOD. lia.
  - lia.
Defined.

(** X3: two [riscv_rotr32] in a row are one rotation by the sum of the counts,
    as long as the sum stays below 32. *)
Theorem riscv_rotr32_compose (x r s : Z) :
  is_uint32 x -> 0 < r -> 0 < s -> r + s < 32 ->
  (y <- RiscV.riscv_rotr32 x r ;; RiscV.riscv_rotr32 y s) = RiscV.riscv_rotr32 x (r + s) /\
  (y <- Generic.riscv_rotr32 x r ;; Generic.riscv_rotr32 y s)
    = Generic.riscv_rotr32 x (r + s).
Proof.
  intros Hx Hr Hs Hrs.
  destruct (riscv_rotr32_rotate x r ltac:(lia)) as [-> ->].
  destruct (riscv_rotr32_rotate (rotate_right 32 x r) s ltac:(lia)) as [-> ->].
  destruct (riscv_rotr32_rotate x (r + s) ltac:(lia)) as [-> ->].
  rewrite rotate_right_compose by (trivial; lia). split; reflexivity.
Qed.

Lemma riscv_rotr32_compose_witness :
  (y <- RiscV.riscv_rotr32 0xDEADBEEF 5 ;; RiscV.riscv_rotr32 y 7)
    = RiscV.riscv_rotr32 0xDEADBEEF (5 + 7) /\
  (y <- Generic.riscv_rotr32 0xDEADBEEF 5 ;; Generic.riscv_rotr32 y 7)
    = Generic.riscv_rotr32 0xDEADBEEF (5 + 7).
Proof.
  apply (riscv_rotr32_compose 0xDEADBEEF 5 7); try lia.
  unfold is_uint32, UINT32_MOD. lia.
Defined.

(** X4: the same for [riscv_rotr64], below 64. *)
Theorem riscv_rotr64_compose (x r s : Z) :
  is_uint64 x -> 0 < r -> 0 < s -> r + s < 64 ->
  (y <- RiscV.riscv_rotr64 x r ;; RiscV.riscv_rotr64 y s) = RiscV.riscv_rotr64 x (r + s) /\
  (y <- Generic.riscv_rotr64 x r ;; Generic.riscv_rotr64 y s)
    = Generic.riscv_rotr64 x (r + s).
Proof.
  intros Hx Hr Hs Hrs.
  destruct (riscv_rotr64_rotate x r ltac:(lia)) as [-> ->].
  destruct (riscv_rotr64_rotate (rotate_right 64 x r) s ltac:(lia)) as [-> ->].
  destruct (riscv_rotr64_rotate x (r + s) ltac:(lia)) as [-> ->].
  rewrite rotate_right_compose by (trivial; lia). split; reflexivity.
Qed.

Lemma riscv_rotr64_compose_witness :
  (y <- RiscV.riscv_rotr64 0x0123456789ABCDEF 5 ;; RiscV.riscv_rotr64 y 7)
    = RiscV.riscv_rotr64 0x0123456789ABCDEF (5 + 7) /\
  (y <- Generic.riscv_rotr64 0x0123456789ABCDEF 5 ;; Generic.riscv_rotr64 y 7)
    = Generic.riscv_rotr64 0x0123456789ABCDEF (5 + 7).
Proof.
  apply (riscv_rotr64_compose 0x0123456789ABCDEF 5 7); try lia.
  unfold is_uint64, UINT64_MOD. lia.
Defined.

(** The round trip of [riscv_rotr32] at [x = 0xDEADBEEF], [r = 5]. *)
Lemma riscv_rotr32_round_trip_witness :
  (y <- RiscV.riscv_rotr32 0xDEADBEEF 5 ;; RiscV.riscv_rotr32 y (32 - 5)) = Some 0xDEADBEEF.
Proof.
  apply (riscv_rotr32_round_trip 0xDEADBEEF 5).
  - unfold is_uint32, UINT32_MOD. lia.
  - lia.
Defined.

(** ** Loops that write: the region written so far *)

(** A loop whose [i]-th iteration turns the state [f i] into [f (S i)]. *)
Lemma for_each_steps (body : nat -> buffer -> option buffer) (f : nat -> buffer)
    (count start : nat) :
  (forall i, (start <= i < start + count)%nat -> body i (f i) = Some (f (S i))) ->
  for_each start count body (f start) = Some (f (start + count)%nat).
Proof.
  revert start. induction count as [|count IH]; intros start H; cbn [for_each].
  - now rewrite Nat.add_0_r.
  - rewrite H by lia. rewrite IH by (intros i Hi; apply H; lia).
    f_equal. f_equal. lia.
Qed.

(** The same loop indexed from [0] while its body works at [base + j]. *)
Lemma for_each_steps_from (body : nat -> buffer -> option buffer) (f : nat -> buffer)
    (base count : nat) :
  (forall j, (j < count)%nat -> body j (f (base + j)%nat) = Some (f (S (base + j)))) ->
  for_each 0 count body (f base) = Some (f (base + count)%nat).
Proof.
  intros H.
  pose proof (for_each_steps body (fun j => f (base + j)%nat) count 0) as E.
  cbn beta in E. rewrite Nat.add_0_r in E. apply E.
  intros j Hj. rewrite H by lia. f_equal. f_equal. lia.
Qed.

(** Reading at or past the end of a written prefix sees the old bytes. *)
Lemma load_bytes_past_prefix (pre d0 : list byte) (off off' n : nat) :
  off = length pre -> (off <= off')%nat -> (off <= length d0)%nat ->
  load_bytes (pre ++ skipn off d0) off' n = load_bytes d0 off' n.
Proof.
  intros -> Hle Hd. unfold load_bytes.
  rewrite length_app, length_skipn.
  replace (length pre + (length d0 - length pre))%nat with (length d0) by lia.
  destruct (Nat.leb_spec (off' + n) (length d0)); [|reflexivity].
  f_equal. f_equal.
  rewrite skipn_app, (skipn_all2 pre) by lia. cbn [app].
  rewrite skipn_skipn. f_equal. lia.
Qed.

Lemma nth_error_past_prefix (pre d0 : list byte) (off k : nat) :
  off = length pre -> (off <= k)%nat -> (off <= length d0)%nat ->
  nth_error (pre ++ skipn off d0) k = nth_error d0 k.
Proof.
  intros -> Hle Hd. rewrite nth_error_app2 by lia.
  rewrite nth_error_skipn. f_equal. lia.
Qed.

Lemma load_word_at (w : nat) (p : buffer) (k : nat) :
  (w * k + w <= length p)%nat ->
  (bs <- load_bytes p (w * k) w ;; Some (le_combine bs)) = Some (word_at w p k).
Proof. intros H. rewrite load_bytes_in_range by lia. reflexivity. Qed.

(** Bytes of word sequences. *)
Lemma length_words_bytes (w : nat) (g : nat -> Z) (count : nat) :
  length (words_bytes w g count) = (w * count)%nat.
Proof.
  unfold words_bytes. induction count as [|count IH]; [cbn; lia|].
  rewrite seq_S, map_app, concat_app, length_app, IH. cbn [map concat Nat.add].
  rewrite app_nil_r, length_le_split. lia.
Qed.

Lemma words_bytes_app (w : nat) (g : nat -> Z) (i n : nat) :
  words_bytes w g (i + n) =
  words_bytes w g i ++ concat (map (fun k => le_split w (g k)) (seq i n)).
Proof. unfold words_bytes. now rewrite seq_app, map_app, concat_app. Qed.

Lemma words_bytes_snoc (w : nat) (g : nat -> Z) (i : nat) :
  words_bytes w g (S i) = words_bytes w g i ++ le_split w (g i).
Proof.
  replace (S i) with (i + 1)%nat by lia. rewrite words_bytes_app.
  cbn [seq map concat]. now rewrite app_nil_r.
Qed.

Lemma words_bytes_ext (w : nat) (g h : nat -> Z) (count : nat) :
  (forall k, (k < count)%nat -> g k = h k) ->
  words_bytes w g count = words_bytes w h count.
Proof.
  intros H. unfold words_bytes. f_equal. apply map_ext_in.
  intros k Hk. apply in_seq in Hk. rewrite H by lia. reflexivity.
Qed.

(** The words of a buffer, put back as bytes, are its prefix. *)
Lemma words_bytes_copy (w : nat) (p : buffer) (count : nat) :
  (w * count <= length p)%nat ->
  words_bytes w (word_at w p) count = firstn (w * count) p.
Proof.
  induction count as [|count IH]; intros H.
  - now rewrite Nat.mul_0_r.
  - rewrite words_bytes_snoc, IH by lia. unfold word_at.
    rewrite le_split_combine_length by (apply length_slice; lia).
    rewrite <- firstn_add_slice. f_equal. lia.
Qed.

Lemma words_bytes_fill (w : nat) (v : Z) (count : nat) :
  words_bytes w (fun _ => v) count = concat (repeat (le_split w v) count).
Proof.
  unfold words_bytes. f_equal. induction count as [|count IH]; [reflexivity|].
  rewrite seq_S, map_app, IH. cbn [map].
  change [le_split w v] with (repeat (le_split w v) 1).
  rewrite <- repeat_app. f_equal. lia.
Qed.

Lemma store_word_written (w : nat) (g : nat -> Z) (d0 : buffer) (i : nat) (v : Z) :
  (w * i + w <= length d0)%nat -> v = g i ->
  store_bytes (written w g d0 i) (w * i) (le_split w v) = Some (written w g d0 (S i)).
Proof.
  intros H ->. unfold written.
  rewrite store_bytes_append.
  - rewrite length_le_split, <- words_bytes_snoc.
    replace (w * S i)%nat with (w * i + w)%nat by nia. reflexivity.
  - now rewrite length_words_bytes.
  - rewrite length_le_split. exact H.
Qed.

Lemma load_word_written (w : nat) (g : nat -> Z) (d0 : buffer) (i k : nat) :
  (i <= k)%nat -> (w * k + w <= length d0)%nat ->
  (bs <- load_bytes (written w g d0 i) (w * k) w ;; Some (le_combine bs))
  = Some (word_at w d0 k).
Proof.
  intros Hik H. unfold written.
  rewrite load_bytes_past_prefix by (rewrite ?length_words_bytes; nia).
  apply load_word_at. exact H.
Qed.

Lemma written_0 (w : nat) (g : nat -> Z) (d0 : buffer) : written w g d0 0 = d0.
Proof. unfold written. now rewrite Nat.mul_0_r. Qed.

Lemma written_copy (w : nat) (s d0 : buffer) (count : nat) :
  (w * count <= length s)%nat ->
  written w (word_at w s) d0 count = firstn (w * count) s ++ skipn (w * count) d0.
Proof. intros H. unfold written. now rewrite words_bytes_copy. Qed.

Lemma store64_written (g : nat -> Z) (d0 : buffer) (i : nat) (v : Z) :
  (8 * i + 8 <= length d0)%nat -> v = g i ->
  store64 (written 8 g d0 i) i v = Some (written 8 g d0 (S i)).
Proof. apply store_word_written. Qed.

Lemma store32_written (g : nat -> Z) (d0 : buffer) (i : nat) (v : Z) :
  (4 * i + 4 <= length d0)%nat -> v = g i ->
  store32 (written 4 g d0 i) i v = Some (written 4 g d0 (S i)).
Proof. apply store_word_written. Qed.

Lemma load64_written (g : nat -> Z) (d0 : buffer) (i k : nat) :
  (i <= k)%nat -> (8 * k + 8 <= length d0)%nat ->
  load64 (written 8 g d0 i) k = Some (word_at 8 d0 k).
Proof. apply load_word_written. Qed.

Lemma load32_written (g : nat -> Z) (d0 : buffer) (i k : nat) :
  (i <= k)%nat -> (4 * k + 4 <= length d0)%nat ->
  load32 (written 4 g d0 i) k = Some (word_at 4 d0 k).
Proof. apply load_word_written. Qed.

(** ** riscv_memfill64 *)

Lemma generic_memfill64_spec (dest : buffer) (value : Z) (count : nat) :
  (8 * count <= length dest)%nat ->
  Generic.riscv_memfill64 dest value count =
  Some (written 8 (fun _ => value) dest count).
Proof.
  intros H. unfold Generic.riscv_memfill64.
  rewrite <- (written_0 8 (fun _ => value) dest) at 1.
  apply (for_each_steps _ (written 8 (fun _ => value) dest) count 0).
  intros i Hi. apply store64_written; [lia|reflexivity].
Qed.

Lemma memfill64_unrolled_spec (d0 : buffer) (value : Z) (count : nat) :
  (8 * count <= length d0)%nat ->
  forall fuel i : nat,
    (count - i <= fuel)%nat -> (i <= count)%nat ->
    exists j, (i <= j <= count)%nat /\
      RiscV.memfill64_unrolled fuel (written 8 (fun _ => value) d0 i) value count i =
      Some (written 8 (fun _ => value) d0 j, j).
Proof.
  intros Hlen. induction fuel as [|fuel IH]; intros i Hfuel Hi;
    cbn [RiscV.memfill64_unrolled];
    destruct (Nat.leb_spec (i + 8) count) as [Hle|Hgt];
    try (exists i; split; [lia|reflexivity]).
  - lia.
  - rewrite Nat.add_0_r.
    rewrite store64_written by (trivial; lia).
    replace (S i) with (i + 1)%nat by lia.
    rewrite store64_written by (trivial; lia).
    replace (S (i + 1)) with (i + 2)%nat by lia.
    rewrite store64_written by (trivial; lia).
    replace (S (i + 2)) with (i + 3)%nat by lia.
    rewrite store64_written by (trivial; lia).
    replace (S (i + 3)) with (i + 4)%nat by lia.
    rewrite store64_written by (trivial; lia).
    replace (S (i + 4)) with (i + 5)%nat by lia.
    rewrite store64_written by (trivial; lia).
    replace (S (i + 5)) with (i + 6)%nat by lia.
    rewrite store64_written by (trivial; lia).
    replace (S (i + 6)) with (i + 7)%nat by lia.
    rewrite store64_written by (trivial; lia).
    replace (S (i + 7)) with (i + 8)%nat by lia.
    destruct (IH (i + 8)%nat ltac:(lia) ltac:(lia)) as [j [Hj E]].
    exists j. split; [lia|exact E].
Qed.

Lemma riscv_memfill64_spec (dest : buffer) (value : Z) (count : nat) :
  (8 * count <= length dest)%nat ->
  RiscV.riscv_memfill64 dest value count =
  Some (written 8 (fun _ => value) dest count).
Proof.
  intros H. unfold RiscV.riscv_memfill64.
  destruct (memfill64_unrolled_spec dest value count H count 0%nat ltac:(lia) ltac:(lia))
    as [j [Hj E]].
  rewrite written_0 in E. rewrite E. cbn [fst snd].
  rewrite (for_each_steps _ (written 8 (fun _ => value) dest) (count - j) j).
  - do 2 f_equal. lia.
  - intros i Hi. apply store64_written; [lia|reflexivity].
Qed.

(** ** riscv_memcpy_prefetch *)

Lemma memcpy_at_rest (s d0 : buffer) (off n : nat) :
  (off + n <= length s)%nat -> (off + n <= length d0)%nat ->
  memcpy_at (firstn off s ++ skipn off d0) off s off n =
  Some (firstn (off + n) s ++ skipn (off + n) d0).
Proof.
  intros Hs Hd. unfold memcpy_at.
  rewrite load_bytes_in_range by lia.
  rewrite store_bytes_append by (rewrite ?length_firstn, ?length_slice; lia).
  rewrite length_slice by lia. now rewrite <- firstn_add_slice.
Qed.

Lemma riscv_memcpy_prefetch_spec (dest src : buffer) (size : nat) :
  (size <= length src)%nat -> (size <= length dest)%nat ->
  RiscV.riscv_memcpy_prefetch dest src size =
  Some (firstn size src ++ skipn size dest).
Proof.
  intros Hs Hd. unfold RiscV.riscv_memcpy_prefetch.
  pose proof (Nat.div_mod_eq size 64) as Hsize.
  pose proof (Nat.mod_upper_bound size 64 ltac:(lia)) as Hrem.
  change RiscV.CACHELINE_SIZE with 64%nat in *.
  set (f := fun k : nat => firstn (8 * k) src ++ skipn (8 * k) dest).
  match goal with
  | |- context [for_each 0 ?n ?body dest] =>
      assert (Hloop : for_each 0 n body dest = Some (f (8 * (size / 64))%nat))
  end.
  { change dest with (f (8 * 0)%nat) at 1.
    apply (for_each_steps _ (fun i => f (8 * i)%nat) (size / 64) 0).
    intros i Hi. cbv zeta.
    replace (8 * S i)%nat with (8 * i + 8)%nat by lia.
    apply (for_each_steps_from _ f (8 * i) 8).
    intros j Hj. unfold f.
    rewrite copy_qword_after_prefix by lia.
    replace (8 * i + j + 1)%nat with (S (8 * i + j)) by lia. reflexivity. }
  rewrite Hloop. unfold f.
  replace (8 * (8 * (size / 64)))%nat with (size / 64 * 64)%nat by lia.
  destruct (Nat.ltb_spec 0 (size mod 64)) as [Hpos|Hzero].
  - rewrite memcpy_at_rest by lia. do 3 f_equal; lia.
  - do 3 f_equal; lia.
Qed.

(** ** Vector loads and stores *)

Lemma vle64_written (g : nat -> Z) (d0 : buffer) (i0 vl i : nat) :
  (i0 <= i)%nat -> (8 * (i + vl) <= length d0)%nat ->
  RVV.vle64_v_u64m1 (written 8 g d0 i0) i vl = Some (map (word_at 8 d0) (seq i vl)).
Proof.
  revert i. induction vl as [|vl IH]; intros i Hi Hlen; cbn [RVV.vle64_v_u64m1 seq map].
  - reflexivity.
  - rewrite load64_written by lia. rewrite IH by lia. reflexivity.
Qed.

Lemma vle64_words (p : buffer) (vl i : nat) :
  (8 * (i + vl) <= length p)%nat ->
  RVV.vle64_v_u64m1 p i vl = Some (map (word_at 8 p) (seq i vl)).
Proof.
  intros H. rewrite <- (written_0 8 (fun _ => 0) p) at 1.
  apply vle64_written; lia.
Qed.

Lemma vle32_written (g : nat -> Z) (d0 : buffer) (i0 vl i : nat) :
  (i0 <= i)%nat -> (4 * (i + vl) <= length d0)%nat ->
  RVV.vle32_v_u32m1 (written 4 g d0 i0) i vl = Some (map (word_at 4 d0) (seq i vl)).
Proof.
  revert i. induction vl as [|vl IH]; intros i Hi Hlen; cbn [RVV.vle32_v_u32m1 seq map].
  - reflexivity.
  - rewrite load32_written by lia. rewrite IH by lia. reflexivity.
Qed.

Lemma vse64_written (g : nat -> Z) (d0 : buffer) (vl i : nat) :
  (8 * (i + vl) <= length d0)%nat ->
  RVV.vse64_v_u64m1 (written 8 g d0 i) i (map g (seq i vl)) =
  Some (written 8 g d0 (i + vl)).
Proof.
  revert i. induction vl as [|vl IH]; intros i Hlen; cbn [RVV.vse64_v_u64m1 seq map].
  - now rewrite Nat.add_0_r.
  - rewrite store64_written by (trivial; lia). rewrite IH by lia.
    do 2 f_equal. lia.
Qed.

Lemma vse32_written (g : nat -> Z) (d0 : buffer) (vl i : nat) :
  (4 * (i + vl) <= length d0)%nat ->
  RVV.vse32_v_u32m1 (written 4 g d0 i) i (map g (seq i vl)) =
  Some (written 4 g d0 (i + vl)).
Proof.
  revert i. induction vl as [|vl IH]; intros i Hlen; cbn [RVV.vse32_v_u32m1 seq map].
  - now rewrite Nat.add_0_r.
  - rewrite store32_written by (trivial; lia). rewrite IH by lia.
    do 2 f_equal. lia.
Qed.

Lemma map_combine_maps {A B C D : Type} (op : B * C -> D) (f : A -> B) (h : A -> C)
    (l : list A) :
  map op (combine (map f l) (map h l)) = map (fun k => op (f k, h k)) l.
Proof. induction l as [|k l IH]; [reflexivity|]. cbn [map combine]. now rewrite IH. Qed.

(** ** riscv_memcpy_rvv *)

Lemma memcpy_rvv_loop_spec (vsetvl_e64m1 : nat -> nat) (s d0 : buffer) (count : nat) :
  vsetvl_ok vsetvl_e64m1 ->
  (8 * count <= length s)%nat -> (8 * count <= length d0)%nat ->
  forall fuel i : nat,
    (count - i <= fuel)%nat -> (i <= count)%nat ->
    RVV.memcpy_rvv_loop vsetvl_e64m1 fuel (written 8 (word_at 8 s) d0 i) s count i =
    Some (written 8 (word_at 8 s) d0 count).
Proof.
  intros Hvl Hs Hd. induction fuel as [|fuel IH]; intros i Hfuel Hi;
    cbn [RVV.memcpy_rvv_loop];
    destruct (Nat.ltb_spec i count) as [Hlt|Hge];
    try (assert (i = count) by lia; subst i; reflexivity).
  - lia.
  - pose proof (Hvl (count - i)%nat ltac:(lia)) as Hgrant.
    unfold RVV.vle64_v_f64m1, RVV.vse64_v_f64m1.
    rewrite vle64_words by lia. rewrite vse64_written by lia.
    apply IH; lia.
Qed.

Lemma riscv_memcpy_rvv_spec (vsetvl_e64m1 : nat -> nat) (dst src : buffer) (size : nat) :
  vsetvl_ok vsetvl_e64m1 -> (size <= length src)%nat -> (size <= length dst)%nat ->
  RVV.riscv_memcpy_rvv vsetvl_e64m1 dst src size =
  Some (firstn size src ++ skipn size dst).
Proof.
  intros Hvl Hs Hd. unfold RVV.riscv_memcpy_rvv.
  pose proof (Nat.div_mod_eq size 8) as Hsize.
  pose proof (Nat.mod_upper_bound size 8 ltac:(lia)) as Hrem.
  pose proof (memcpy_rvv_loop_spec vsetvl_e64m1 src dst (size / 8) Hvl
                ltac:(lia) ltac:(lia) (size / 8)%nat 0%nat ltac:(lia) ltac:(lia)) as H.
  rewrite written_0 in H. rewrite H. clear H.
  rewrite written_copy by lia.
  destruct (Nat.eqb_spec (size mod 8) 0) as [E|E]; cbn [negb].
  - do 3 f_equal; lia.
  - replace (size - size mod 8)%nat with (8 * (size / 8))%nat by lia.
    rewrite memcpy_at_rest by lia. do 3 f_equal; lia.
Qed.

(** ** Bytewise XOR *)

Lemma mod_pow2_testbit (a n i : Z) :
  0 <= n -> Z.testbit (a mod 2 ^ n) i = (i <? n) && Z.testbit a i.
Proof.
  intros Hn. destruct (Z.ltb_spec i n); cbn [andb].
  - apply Z.mod_pow2_bits_low. lia.
  - apply Z.mod_pow2_bits_high. lia.
Qed.

Lemma lxor_mod_pow2 (x y n : Z) :
  0 <= n -> Z.lxor x y mod 2 ^ n = Z.lxor (x mod 2 ^ n) (y mod 2 ^ n).
Proof.
  intros Hn. apply Z.bits_inj'. intros i Hi.
  rewrite Z.lxor_spec, !mod_pow2_testbit, Z.lxor_spec by lia.
  destruct (i <? n); reflexivity.
Qed.

Lemma byte_of_Z_mod (z : Z) : byte.of_Z (z mod 2 ^ 8) = byte.of_Z z.
Proof.
  apply byte.unsigned_inj. rewrite !byte.unsigned_of_Z. unfold byte.wrap.
  apply Z.mod_mod. lia.
Qed.

Lemma byte_xor_of_Z (x y : Z) :
  byte.of_Z (Z.lxor (byte.unsigned (byte.of_Z x)) (byte.unsigned (byte.of_Z y))) =
  byte.of_Z (Z.lxor x y).
Proof.
  rewrite !byte.unsigned_of_Z. unfold byte.wrap.
  rewrite <- lxor_mod_pow2 by lia. apply byte_of_Z_mod.
Qed.

(** XOR with the same byte twice gives the byte back. *)
Lemma byte_xor_twice (x : byte) (c : Z) :
  byte.of_Z (Z.lxor (byte.unsigned (byte.of_Z (Z.lxor (byte.unsigned x) c))) c) = x.
Proof.
  rewrite <- (byte.of_Z_unsigned x) at 2.
  rewrite <- byte_of_Z_mod, lxor_mod_pow2 by lia.
  rewrite byte.unsigned_of_Z. unfold byte.wrap. rewrite Z.mod_mod by lia.
  rewrite <- lxor_mod_pow2 by lia. rewrite byte_of_Z_mod.
  rewrite Z.lxor_assoc, Z.lxor_nilpotent, Z.lxor_0_r. reflexivity.
Qed.

Lemma length_xor_bytes (xs ys : list byte) :
  length xs = length ys -> length (xor_bytes xs ys) = length xs.
Proof.
  intros H. unfold xor_bytes. rewrite length_map, length_combine. lia.
Qed.

Lemma xor_bytes_app (xs1 ys1 xs2 ys2 : list byte) :
  length xs1 = length ys1 ->
  xor_bytes (xs1 ++ xs2) (ys1 ++ ys2) = xor_bytes xs1 ys1 ++ xor_bytes xs2 ys2.
Proof.
  unfold xor_bytes. revert ys1.
  induction xs1 as [|x xs1 IH]; intros [|y ys1] H; try discriminate.
  - reflexivity.
  - cbn [app combine map]. f_equal. apply IH. cbn in H. lia.
Qed.

Lemma xor_bytes_twice (xs ys : list byte) :
  length xs = length ys -> xor_bytes (xor_bytes xs ys) ys = xs.
Proof.
  revert ys. induction xs as [|x xs IH]; intros [|y ys] H; try discriminate.
  - reflexivity.
  - unfold xor_bytes in *. cbn [combine map fst snd].
    rewrite byte_xor_twice. f_equal. apply IH. cbn in H. lia.
Qed.

Lemma le_split_S (n : nat) (z : Z) :
  le_split (S n) z = byte.of_Z z :: le_split n (Z.shiftr z 8).
Proof. reflexivity. Qed.

Lemma le_split_lxor (n : nat) (x y : Z) :
  le_split n (Z.lxor x y) = xor_bytes (le_split n x) (le_split n y).
Proof.
  revert x y. induction n as [|n IH]; intros x y; [reflexivity|].
  rewrite !le_split_S. unfold xor_bytes in *. cbn [combine map fst snd].
  rewrite byte_xor_of_Z. f_equal.
  rewrite Z.shiftr_lxor. apply IH.
Qed.

Lemma firstn_S_nth_error {A : Type} (l : list A) (i : nat) (x : A) :
  nth_error l i = Some x -> firstn (S i) l = firstn i l ++ [x].
Proof.
  revert i. induction l as [|a l IH]; intros [|i] H; try discriminate.
  - cbn in H. injection H as ->. reflexivity.
  - cbn [firstn app nth_error] in *. f_equal. now apply IH.
Qed.

(** State of [a] after its first [i] bytes were XORed with those of [b]. *)
Lemma xor_byte_at_step (a b : buffer) (i : nat) :
  (i < length a)%nat -> (i < length b)%nat ->
  xor_byte_at (xor_bytes (firstn i a) (firstn i b) ++ skipn i a) b i =
  Some (xor_bytes (firstn (S i) a) (firstn (S i) b) ++ skipn (S i) a).
Proof.
  intros Ha Hb.
  assert (Hl : length (xor_bytes (firstn i a) (firstn i b)) = i)
    by (rewrite length_xor_bytes; rewrite !length_firstn; lia).
  destruct (in_range_nth_error a i Ha) as [x Hx].
  destruct (in_range_nth_error b i Hb) as [y Hy].
  unfold xor_byte_at, load8, store8.
  rewrite nth_error_past_prefix, Hx, Hy by lia.
  rewrite store_bytes_append by (cbn [length]; lia).
  rewrite (firstn_S_nth_error a i x Hx), (firstn_S_nth_error b i y Hy).
  rewrite xor_bytes_app by (rewrite !length_firstn; lia).
  cbn [length]. do 3 f_equal. lia.
Qed.

Lemma xor_bytes_words (a b : buffer) (count : nat) :
  (8 * count <= length a)%nat -> (8 * count <= length b)%nat ->
  words_bytes 8 (fun k => Z.lxor (word_at 8 a k) (word_at 8 b k)) count =
  xor_bytes (firstn (8 * count) a) (firstn (8 * count) b).
Proof.
  induction count as [|count IH]; intros Ha Hb.
  - reflexivity.
  - rewrite words_bytes_snoc, IH by lia. unfold word_at.
    rewrite le_split_lxor.
    rewrite !le_split_combine_length by (apply length_slice; lia).
    replace (8 * S count)%nat with (8 * count + 8)%nat by lia.
    rewrite !firstn_add_slice.
    rewrite xor_bytes_app by (rewrite !length_firstn; lia). reflexivity.
Qed.

(** ** riscv_xor_rvv *)

Lemma scalar_xor_rvv_spec (a b : buffer) (size : nat) :
  (size <= length a)%nat -> (size <= length b)%nat ->
  Scalar.riscv_xor_rvv a b size =
  Some (xor_bytes (firstn size a) (firstn size b) ++ skipn size a).
Proof.
  intros Ha Hb. unfold Scalar.riscv_xor_rvv.
  pose proof (for_each_steps (fun i a0 => xor_byte_at a0 b i)
                (fun i => xor_bytes (firstn i a) (firstn i b) ++ skipn i a) size 0) as H.
  cbn beta in H. apply H. intros i Hi. apply xor_byte_at_step; lia.
Qed.

Lemma xor_rvv_loop_spec (vsetvl_e64m1 : nat -> nat) (a0 b : buffer) (count : nat) :
  vsetvl_ok vsetvl_e64m1 ->
  (8 * count <= length a0)%nat -> (8 * count <= length b)%nat ->
  let g := fun k => Z.lxor (word_at 8 a0 k) (word_at 8 b k) in
  forall fuel i : nat,
    (count - i <= fuel)%nat -> (i <= count)%nat ->
    RVV.xor_rvv_loop vsetvl_e64m1 fuel (written 8 g a0 i) b count i =
    Some (written 8 g a0 count).
Proof.
  intros Hvl Ha Hb g. induction fuel as [|fuel IH]; intros i Hfuel Hi;
    cbn [RVV.xor_rvv_loop];
    destruct (Nat.ltb_spec i count) as [Hlt|Hge];
    try (assert (i = count) by lia; subst i; reflexivity).
  - lia.
  - pose proof (Hvl (count - i)%nat ltac:(lia)) as Hgrant.
    rewrite vle64_written by lia. rewrite vle64_words by lia.
    unfold RVV.vxor_vv_u64m1.
    rewrite (map_combine_maps (fun xy => Z.lxor (fst xy) (snd xy))).
    cbn [fst snd]. fold g.
    rewrite vse64_written by lia. apply IH; lia.
Qed.

Lemma riscv_xor_rvv_spec (vsetvl_e64m1 : nat -> nat) (a b : buffer) (size : nat) :
  vsetvl_ok vsetvl_e64m1 -> (size <= length a)%nat -> (size <= length b)%nat ->
  RVV.riscv_xor_rvv vsetvl_e64m1 a b size =
  Some (xor_bytes (firstn size a) (firstn size b) ++ skipn size a).
Proof.
  intros Hvl Ha Hb. unfold RVV.riscv_xor_rvv.
  pose proof (Nat.div_mod_eq size 8) as Hsize.
  pose proof (Nat.mod_upper_bound size 8 ltac:(lia)) as Hrem.
  pose proof (xor_rvv_loop_spec vsetvl_e64m1 a b (size / 8) Hvl
                ltac:(lia) ltac:(lia) (size / 8)%nat 0%nat ltac:(lia) ltac:(lia)) as H.
  cbv zeta in H. rewrite written_0 in H. rewrite H. clear H.
  unfold written. rewrite xor_bytes_words by lia.
  set (f := fun i => xor_bytes (firstn i a) (firstn i b) ++ skipn i a).
  change (xor_bytes (firstn (8 * (size / 8)) a) (firstn (8 * (size / 8)) b)
          ++ skipn (8 * (size / 8)) a) with (f (8 * (size / 8))%nat).
  destruct (Nat.eqb_spec (size mod 8) 0) as [E|E]; cbn [negb].
  - replace (8 * (size / 8))%nat with size by lia. reflexivity.
  - replace (size - size mod 8)%nat with (8 * (size / 8))%nat by lia.
    rewrite (for_each_steps_from _ f (8 * (size / 8)) (size mod 8)).
    + replace (8 * (size / 8) + size mod 8)%nat with size by lia. reflexivity.
    + intros j Hj. unfold f. apply xor_byte_at_step; lia.
Qed.

(** ** riscv_aes_subbytes_rvv *)

Lemma xor_const_twice (c : Z) (xs : list byte) : xor_const c (xor_const c xs) = xs.
Proof.
  unfold xor_const. rewrite map_map. rewrite <- (map_id xs) at 2.
  apply map_ext. intros x. apply byte_xor_twice.
Qed.

Lemma length_xor_const (c : Z) (xs : list byte) : length (xor_const c xs) = length xs.
Proof. apply length_map. Qed.

Lemma xor_const_step (c : Z) (s0 : buffer) (i n : nat) :
  xor_const c (firstn i s0) ++ xor_const c (firstn n (skipn i s0)) =
  xor_const c (firstn (i + n) s0).
Proof. unfold xor_const. now rewrite <- map_app, <- firstn_add_slice. Qed.

Lemma scalar_aes_subbytes_spec (state : buffer) (size : nat) :
  (size <= length state)%nat ->
  Scalar.riscv_aes_subbytes_rvv state size =
  Some (xor_const 0x63 (firstn size state) ++ skipn size state).
Proof.
  intros Hlen. unfold Scalar.riscv_aes_subbytes_rvv.
  pose proof (for_each_steps
    (fun i st => x <- load8 st i ;;
                 store8 st i (byte.of_Z (Z.lxor (byte.unsigned x) 0x63)))
    (fun i => xor_const 0x63 (firstn i state) ++ skipn i state) size 0) as H.
  cbn beta in H. apply H. intros i Hi.
  destruct (in_range_nth_error state i ltac:(lia)) as [x Hx].
  unfold load8, store8.
  rewrite nth_error_past_prefix, Hx
    by (rewrite ?length_xor_const, ?length_firstn; lia).
  rewrite store_bytes_append
    by (rewrite ?length_xor_const, ?length_firstn; cbn [length]; lia).
  rewrite (firstn_S_nth_error state i x Hx).
  unfold xor_const. rewrite map_app. cbn [map length].
  replace (i + 1)%nat with (S i) by lia. reflexivity.
Qed.

Lemma aes_subbytes_rvv_loop_spec (vsetvl_e8m1 : nat -> nat) (s0 : buffer) (size : nat) :
  vsetvl_ok vsetvl_e8m1 -> (size <= length s0)%nat ->
  forall fuel i : nat,
    (size - i <= fuel)%nat -> (i <= size)%nat ->
    RVV.aes_subbytes_rvv_loop vsetvl_e8m1 fuel
      (xor_const 0x63 (firstn i s0) ++ skipn i s0) size i =
    Some (xor_const 0x63 (firstn size s0) ++ skipn size s0).
Proof.
  intros Hvl Hlen. induction fuel as [|fuel IH]; intros i Hfuel Hi;
    cbn [RVV.aes_subbytes_rvv_loop];
    destruct (Nat.ltb_spec i size) as [Hlt|Hge];
    try (assert (i = size) by lia; subst i; reflexivity).
  - lia.
  - pose proof (Hvl (size - i)%nat ltac:(lia)) as Hgrant.
    unfold RVV.vle8_v_u8m1, RVV.vse8_v_u8m1, RVV.vxor_vx_u8m1.
    rewrite load_bytes_past_prefix
      by (rewrite ?length_xor_const, ?length_firstn; lia).
    rewrite load_bytes_in_range by lia.
    fold (xor_const 0x63 (firstn (vsetvl_e8m1 (size - i)%nat) (skipn i s0))).
    rewrite store_bytes_append
      by (rewrite ?length_xor_const, ?length_firstn, ?length_skipn; lia).
    rewrite xor_const_step, length_xor_const, length_slice by lia.
    apply IH; lia.
Qed.

Lemma riscv_aes_subbytes_rvv_spec (vsetvl_e8m1 : nat -> nat) (state : buffer) (size : nat) :
  vsetvl_ok vsetvl_e8m1 -> (size <= length state)%nat ->
  RVV.riscv_aes_subbytes_rvv vsetvl_e8m1 state size =
  Some (xor_const 0x63 (firstn size state) ++ skipn size state).
Proof.
  intros Hvl Hlen. unfold RVV.riscv_aes_subbytes_rvv.
  apply (aes_subbytes_rvv_loop_spec vsetvl_e8m1 state size Hvl Hlen size 0%nat); lia.
Qed.

(** ** riscv_aes_rotate_rvv *)

(** The word operation of both branches on the four bytes of a word. *)
Lemma rotl8_word_bytes (b0 b1 b2 b3 : byte) :
  let x := le_combine [b0; b1; b2; b3] in
  le_split 4 (Z.lor (to_uint32 (Z.shiftl x 8)) (Z.shiftr x 24)) = [b3; b0; b1; b2].
Proof.
  intros x.
  assert (E : Z.lor (to_uint32 (Z.shiftl x 8)) (Z.shiftr x 24)
              = le_combine [b3; b0; b1; b2]).
  { subst x.
    change [b0; b1; b2; b3] with ([b0; b1; b2] ++ [b3]).
    change [b3; b0; b1; b2] with ([b3] ++ [b0; b1; b2]).
    rewrite !le_combine_app.
    change (Z.of_nat (length [b0; b1; b2]) * 8) with 24.
    change (Z.of_nat (length [b3]) * 8) with 8.
    pose proof (le_combine_bound [b0; b1; b2]) as HL.
    pose proof (le_combine_bound [b3]) as HH.
    change (8 * Z.of_nat (length [b0; b1; b2])) with 24 in HL.
    change (8 * Z.of_nat (length [b3])) with 8 in HH.
    set (L := le_combine [b0; b1; b2]) in *. set (H := le_combine [b3]) in *.
    unfold to_uint32, UINT32_MOD.
    apply Z.bits_inj'. intros n Hn.
    rewrite !Z.lor_spec, Z.shiftr_spec, mod_pow2_testbit, !Z.lor_spec by lia.
    rewrite (Z.shiftl_spec L 8 n) by lia.
    rewrite (Z.shiftl_spec H 24 (n + 24)) by lia.
    replace (n + 24 - 24) with n by lia.
    rewrite (word_high_bits 24 ltac:(lia) L (n + 24)) by lia.
    destruct (Z.ltb_spec n 32) as [Hlt|Hge]; cbn [andb orb].
    - rewrite Z.shiftl_spec, Z.lor_spec by lia.
      destruct (Z.lt_ge_cases n 8) as [H8|H8].
      + rewrite !(Z.testbit_neg_r _ (n - 8)) by lia.
        cbn [orb]. rewrite orb_false_r. reflexivity.
      + rewrite (Z.shiftl_spec H 24 (n - 8)) by lia.
        rewrite (Z.testbit_neg_r H (n - 8 - 24)) by lia.
        rewrite (word_high_bits 8 ltac:(lia) H n) by lia.
        destruct (Z.testbit L (n - 8)); reflexivity.
    - rewrite (word_high_bits 8 ltac:(lia) H n) by lia.
      rewrite (word_high_bits 24 ltac:(lia) L (n - 8)) by lia. reflexivity. }
  rewrite E. apply le_split_combine_length. reflexivity.
Qed.

(** The buffer after its first [count] 4-byte groups were rotated. *)
Lemma rotl8_words_step (count : nat) (b0 b1 b2 b3 : byte) (rest : list byte) :
  rotl8_words (S count) (b0 :: b1 :: b2 :: b3 :: rest) ++
    skipn (4 * S count) (b0 :: b1 :: b2 :: b3 :: rest) =
  b3 :: b0 :: b1 :: b2 :: (rotl8_words count rest ++ skipn (4 * count) rest).
Proof.
  replace (4 * S count)%nat with (S (S (S (S (4 * count))))) by lia. reflexivity.
Qed.

Lemma four_bytes (d : list byte) (n : nat) :
  (4 * S n <= length d)%nat ->
  exists b0 b1 b2 b3 rest, d = b0 :: b1 :: b2 :: b3 :: rest /\ (4 * n <= length rest)%nat.
Proof.
  intros H. destruct d as [|b0 [|b1 [|b2 [|b3 rest]]]]; cbn [length] in H; try lia.
  exists b0, b1, b2, b3, rest. split; [reflexivity|lia].
Qed.

Lemma length_rotl8_words (count : nat) (d : list byte) :
  (4 * count <= length d)%nat -> length (rotl8_words count d) = (4 * count)%nat.
Proof.
  revert d. induction count as [|count IH]; intros d H.
  - destruct d; reflexivity.
  - destruct (four_bytes d count H) as [b0 [b1 [b2 [b3 [rest [-> Hr]]]]]].
    cbn [rotl8_words length]. rewrite IH by exact Hr. lia.
Qed.

Lemma rotl8_words_snoc (count : nat) (d : list byte) :
  (4 * S count <= length d)%nat ->
  rotl8_words (S count) d =
  rotl8_words count d ++
  le_split 4 (Z.lor (to_uint32 (Z.shiftl (word_at 4 d count) 8))
                    (Z.shiftr (word_at 4 d count) 24)).
Proof.
  revert d. induction count as [|count IH]; intros d H.
  - destruct (four_bytes d 0 H) as [b0 [b1 [b2 [b3 [rest [-> Hr]]]]]].
    unfold word_at. change (4 * 0)%nat with 0%nat.
    cbn [rotl8_words skipn firstn app].
    pose proof (rotl8_word_bytes b0 b1 b2 b3) as E. cbv zeta in E. rewrite E.
    destruct rest; reflexivity.
  - destruct (four_bytes d (S count) H) as [b0 [b1 [b2 [b3 [rest [-> Hr]]]]]].
    change (rotl8_words (S (S count)) (b0 :: b1 :: b2 :: b3 :: rest))
      with (b3 :: b0 :: b1 :: b2 :: rotl8_words (S count) rest).
    rewrite IH by exact Hr.
    change (rotl8_words (S count) (b0 :: b1 :: b2 :: b3 :: rest))
      with (b3 :: b0 :: b1 :: b2 :: rotl8_words count rest).
    cbn [app]. do 5 f_equal.
    unfold word_at.
    replace (4 * S count)%nat with (S (S (S (S (4 * count))))) by lia.
    reflexivity.
Qed.

Lemma rotl8_words_bytes (d0 : buffer) (count : nat) :
  (4 * count <= length d0)%nat ->
  words_bytes 4 (fun k => Z.lor (to_uint32 (Z.shiftl (word_at 4 d0 k) 8))
                                (Z.shiftr (word_at 4 d0 k) 24)) count =
  rotl8_words count d0.
Proof.
  induction count as [|count IH]; intros H.
  - destruct d0; reflexivity.
  - rewrite words_bytes_snoc, IH by lia. symmetry. apply rotl8_words_snoc. exact H.
Qed.

Lemma scalar_aes_rotate_spec (data : buffer) (count : nat) :
  (4 * count <= length data)%nat ->
  Scalar.riscv_aes_rotate_rvv data count =
  Some (rotl8_words count data ++ skipn (4 * count) data).
Proof.
  intros H. unfold Scalar.riscv_aes_rotate_rvv.
  set (g := fun k => Z.lor (to_uint32 (Z.shiftl (word_at 4 data k) 8))
                           (Z.shiftr (word_at 4 data k) 24)).
  rewrite <- (written_0 4 g data) at 1.
  rewrite (for_each_steps _ (written 4 g data) count 0).
  - unfold written, g. now rewrite rotl8_words_bytes.
  - intros i Hi. rewrite load32_written by lia.
    apply store32_written; [lia|reflexivity].
Qed.

Lemma aes_rotate_rvv_loop_spec (vsetvl_e32m1 : nat -> nat) (d0 : buffer) (count : nat) :
  vsetvl_ok vsetvl_e32m1 -> (4 * count <= length d0)%nat ->
  let g := fun k => Z.lor (to_uint32 (Z.shiftl (word_at 4 d0 k) 8))
                          (Z.shiftr (word_at 4 d0 k) 24) in
  forall fuel i : nat,
    (count - i <= fuel)%nat -> (i <= count)%nat ->
    RVV.aes_rotate_rvv_loop vsetvl_e32m1 fuel (written 4 g d0 i) count i =
    Some (written 4 g d0 count).
Proof.
  intros Hvl Hlen g. induction fuel as [|fuel IH]; intros i Hfuel Hi;
    cbn [RVV.aes_rotate_rvv_loop];
    destruct (Nat.ltb_spec i count) as [Hlt|Hge];
    try (assert (i = count) by lia; subst i; reflexivity).
  - lia.
  - pose proof (Hvl (count - i)%nat ltac:(lia)) as Hgrant.
    rewrite vle32_written by lia.
    unfold RVV.vor_vv_u32m1, RVV.vsll_vx_u32m1, RVV.vsrl_vx_u32m1.
    rewrite !map_map.
    rewrite (map_combine_maps (fun xy => Z.lor (fst xy) (snd xy))).
    cbn [fst snd]. fold g.
    rewrite vse32_written by lia. apply IH; lia.
Qed.

Lemma riscv_aes_rotate_rvv_spec (vsetvl_e32m1 : nat -> nat) (data : buffer) (count : nat) :
  vsetvl_ok vsetvl_e32m1 -> (4 * count <= length data)%nat ->
  RVV.riscv_aes_rotate_rvv vsetvl_e32m1 data count =
  Some (rotl8_words count data ++ skipn (4 * count) data).
Proof.
  intros Hvl H. unfold RVV.riscv_aes_rotate_rvv.
  pose proof (aes_rotate_rvv_loop_spec vsetvl_e32m1 data count Hvl H count 0%nat
                ltac:(lia) ltac:(lia)) as E.
  cbv zeta in E. rewrite written_0 in E. rewrite E.
  unfold written. now rewrite rotl8_words_bytes.
Qed.

(** Four rotations by one byte restore the buffer. *)
Lemma rotl8_words_four_times (count : nat) (d : list byte) :
  (4 * count <= length d)%nat ->
  let rot := fun d => rotl8_words count d ++ skipn (4 * count) d in
  rot (rot (rot (rot d))) = d.
Proof.
  revert d. induction count as [|count IH]; intros d H rot.
  - subst rot. cbn. destruct d; reflexivity.
  - destruct (four_bytes d count H) as [b0 [b1 [b2 [b3 [rest [-> Hr]]]]]].
    subst rot. cbv beta.
    rewrite !rotl8_words_step. do 4 f_equal.
    apply (IH rest Hr).
Qed.

Lemma length_rotated (count : nat) (d : list byte) :
  (4 * count <= length d)%nat ->
  length (rotl8_words count d ++ skipn (4 * count) d) = length d.
Proof.
  intros H. rewrite length_app, length_rotl8_words, length_skipn by exact H. lia.
Qed.

(** ** Bulk compare: the four routines meet one contract *)

(** Two ranges are equal or have a first byte that differs. *)
Lemma first_difference (a b : buffer) (n : nat) :
  (n <= length a)%nat -> (n <= length b)%nat ->
  firstn n a = firstn n b \/
  exists d x y, (d < n)%nat /\ firstn d a = firstn d b /\
                nth_error a d = Some x /\ nth_error b d = Some y /\ x <> y.
Proof.
  induction n as [|n IH]; intros Ha Hb; [left; reflexivity|].
  destruct (IH ltac:(lia) ltac:(lia)) as [Heq|[d [x [y [Hd Hrest]]]]].
  - destruct (in_range_nth_error a n ltac:(lia)) as [x Hx].
    destruct (in_range_nth_error b n ltac:(lia)) as [y Hy].
    destruct (Z.eq_dec (byte.unsigned x) (byte.unsigned y)) as [E|E].
    + apply byte.unsigned_inj in E. subst y. left.
      rewrite (firstn_S_nth_error a n x Hx), (firstn_S_nth_error b n x Hy).
      now rewrite Heq.
    + right. exists n, x, y. repeat split; trivial; [lia|congruence].
  - right. exists d, x, y. split; [lia|exact Hrest].
Qed.

(** The first difference of two ranges is at one index only. *)
Lemma first_difference_unique (a b : buffer) (d d' : nat) (x y x' y' : byte) :
  firstn d a = firstn d b ->
  nth_error a d = Some x -> nth_error b d = Some y -> x <> y ->
  firstn d' a = firstn d' b ->
  nth_error a d' = Some x' -> nth_error b d' = Some y' -> x' <> y' ->
  d = d'.
Proof.
  intros Hpre Hx Hy Hne Hpre' Hx' Hy' Hne'.
  destruct (Nat.lt_trichotomy d d') as [Hlt|[Heq|Hgt]]; [|exact Heq|]; exfalso.
  - pose proof (same_prefix_nth_error a b d' d Hpre' Hlt). congruence.
  - pose proof (same_prefix_nth_error a b d d' Hpre Hgt). congruence.
Qed.

(** A routine that returns 0 on equal ranges and, on others, a value of the
    sign of the first difference, meets the contract. *)
Lemma contract_of_signs (result : option Z) (a b : buffer) (n : nat) :
  (n <= length a)%nat -> (n <= length b)%nat ->
  (firstn n a = firstn n b -> result = Some 0) ->
  (forall (d : nat) (x y : byte),
      (d < n)%nat -> firstn d a = firstn d b ->
      nth_error a d = Some x -> nth_error b d = Some y -> x <> y ->
      exists v, result = Some v /\
                Z.sgn v = Z.sgn (byte.unsigned x - byte.unsigned y)) ->
  compare_contract result a b n.
Proof.
  intros Ha Hb Hsame Hdiff. unfold compare_contract.
  destruct (first_difference a b n Ha Hb) as [Heq|[d [x [y [Hd [Hpre [Hx [Hy Hne]]]]]]]].
  - exists 0. split; [now apply Hsame|]. split; [reflexivity|].
    intros d x y Hd Hpre Hx Hy Hne. exfalso.
    pose proof (same_prefix_nth_error a b n d Heq Hd). congruence.
  - destruct (Hdiff d x y Hd Hpre Hx Hy Hne) as [v [E Hv]].
    exists v. split; [exact E|]. split.
    + intros Heq. exfalso.
      pose proof (same_prefix_nth_error a b n d Heq Hd). congruence.
    + intros d' x' y' Hd' Hpre' Hx' Hy' Hne'.
      assert (d = d')
        by exact (first_difference_unique a b d d' x y x' y'
                    Hpre Hx Hy Hne Hpre' Hx' Hy' Hne').
      subst d'. congruence.
Qed.

(** Each of the four bulk compares meets the contract. *)
Lemma bulk_compares_contract (vsetvl_e64m1 : nat -> nat) (a b : buffer) (n : nat) :
  vsetvl_ok vsetvl_e64m1 -> (n <= length a)%nat -> (n <= length b)%nat ->
  forall compare, In compare (bulk_compares vsetvl_e64m1) ->
    compare_contract (compare a b n) a b n.
Proof.
  intros Hvl Ha Hb compare Hin. cbn [bulk_compares In] in Hin.
  destruct Hin as [<-|[<-|[<-|[<-|[]]]]];
    (apply contract_of_signs; trivial;
     [intros Heq|intros d x y Hd Hpre Hx Hy Hne; eexists; split; [|reflexivity]]).
  - now apply riscv_memcmp_fast_same.
  - now apply (riscv_memcmp_fast_first_diff a b n d).
  - now apply memcmp_same.
  - now apply (memcmp_first_diff a b n d).
  - now apply riscv_memcmp_rvv_same.
  - now apply (riscv_memcmp_rvv_first_diff vsetvl_e64m1 Hvl a b n d).
  - now apply memcmp_same.
  - now apply (memcmp_first_diff a b n d).
Qed.

(** What follows from the contract alone. *)
Lemma contract_zero_iff (result : option Z) (a b : buffer) (n : nat) :
  (n <= length a)%nat -> (n <= length b)%nat ->
  compare_contract result a b n ->
  exists v, result = Some v /\ (v = 0 <-> firstn n a = firstn n b).
Proof.
  intros Ha Hb [v [E [Hsame Hsign]]]. exists v. split; [exact E|].
  split; [|exact Hsame]. intros Hv.
  destruct (first_difference a b n Ha Hb) as [Heq|[d [x [y [Hd [Hpre [Hx [Hy Hne]]]]]]]];
    [exact Heq|exfalso].
  pose proof (Hsign d x y Hd Hpre Hx Hy Hne) as Hs.
  rewrite Hv in Hs. cbn in Hs. symmetry in Hs. apply Z.sgn_null_iff in Hs.
  apply Hne, byte.unsigned_inj. lia.
Qed.

Lemma contract_same_sign (r1 r2 : option Z) (a b : buffer) (n : nat) :
  (n <= length a)%nat -> (n <= length b)%nat ->
  compare_contract r1 a b n -> compare_contract r2 a b n ->
  exists v w, r1 = Some v /\ r2 = Some w /\ Z.sgn v = Z.sgn w.
Proof.
  intros Ha Hb [v [Ev [Hsame Hsign]]] [w [Ew [Hsame' Hsign']]].
  exists v, w. split; [exact Ev|]. split; [exact Ew|].
  destruct (first_difference a b n Ha Hb) as [Heq|[d [x [y [Hd [Hpre [Hx [Hy Hne]]]]]]]].
  - now rewrite (Hsame Heq), (Hsame' Heq).
  - now rewrite (Hsign d x y), (Hsign' d x y).
Qed.

Lemma contract_swap (r1 r2 : option Z) (a b : buffer) (n : nat) :
  (n <= length a)%nat -> (n <= length b)%nat ->
  compare_contract r1 a b n -> compare_contract r2 b a n ->
  exists v w, r1 = Some v /\ r2 = Some w /\ Z.sgn w = - Z.sgn v.
Proof.
  intros Ha Hb [v [Ev [Hsame Hsign]]] [w [Ew [Hsame' Hsign']]].
  exists v, w. split; [exact Ev|]. split; [exact Ew|].
  destruct (first_difference a b n Ha Hb) as [Heq|[d [x [y [Hd [Hpre [Hx [Hy Hne]]]]]]]].
  - rewrite (Hsame Heq), (Hsame' (eq_sym Heq)). reflexivity.
  - rewrite (Hsign d x y Hd Hpre Hx Hy Hne).
    rewrite (Hsign' d y x Hd (eq_sym Hpre) Hy Hx (not_eq_sym Hne)).
    rewrite <- Z.sgn_opp. f_equal. lia.
Qed.

(** ** The properties *)

(** A hart with [VLEN = 128] grants between 1 and [avl] elements. *)
Ltac vlen128_grants :=
  let avl := fresh "avl" in
  let Havl := fresh "Havl" in
  intros avl Havl; unfold vsetvl_vlen;
  first [ progress change (128 / 64)%nat with 2%nat
        | progress change (128 / 32)%nat with 4%nat
        | progress change (128 / 8)%nat with 16%nat ];
  lia.

Ltac buffer_length := vm_compute; lia.

Lemma prefix_replaced (pre a : list byte) (n : nat) :
  length pre = n -> (n <= length a)%nat ->
  firstn n (pre ++ skipn n a) = pre /\
  skipn n (pre ++ skipn n a) = skipn n a /\
  length (pre ++ skipn n a) = length a.
Proof.
  intros Hl Ha. repeat split.
  - rewrite firstn_app, Hl, Nat.sub_diag, firstn_O, app_nil_r.
    apply firstn_all2. lia.
  - rewrite skipn_app, Hl, Nat.sub_diag, skipn_O.
    rewrite skipn_all2 by lia. reflexivity.
  - rewrite length_app, length_skipn. lia.
Qed.

(** X5: [riscv_rotr32] by [0 < r < 32] is a rotation in both branches: the
    result is a 32-bit word whose bit [n] is bit [(n + r) mod 32] of [x]. *)
Theorem riscv_rotr32_is_rotation (x r : Z) :
  is_uint32 x -> 0 < r < 32 ->
  exists y, RiscV.riscv_rotr32 x r = Some y /\ Generic.riscv_rotr32 x r = Some y /\
            is_uint32 y /\
            forall n, 0 <= n < 32 -> Z.testbit y n = Z.testbit x ((n + r) mod 32).
Proof.
  intros Hx Hr. destruct (riscv_rotr32_rotate x r Hr) as [E1 E2].
  exists (rotate_right 32 x r). repeat split; trivial.
  - apply rotate_right_range; trivial; lia.
  - apply rotate_right_range; trivial; lia.
  - intros n Hn. rewrite rotate_right_bits by (trivial; lia).
    destruct (Z.ltb_spec n 32); [reflexivity|lia].
Qed.

Lemma riscv_rotr32_is_rotation_witness :
  exists y, RiscV.riscv_rotr32 0xDEADBEEF 8 = Some y /\
            Generic.riscv_rotr32 0xDEADBEEF 8 = Some y /\
            is_uint32 y /\
            forall n, 0 <= n < 32 -> Z.testbit y n = Z.testbit 0xDEADBEEF ((n + 8) mod 32).
Proof.
  apply (riscv_rotr32_is_rotation 0xDEADBEEF 8).
  - unfold is_uint32, UINT32_MOD. lia.
  - lia.
Defined.

(** X7: [riscv_memcpy_prefetch] copies exactly [size] bytes in both builds:
    the first [size] bytes of the destination become those of the source
    and every later byte keeps its value, whatever [size] is (no multiple of
    the cache line is required). *)
Theorem riscv_memcpy_prefetch_exact (dest src : buffer) (size : nat) :
  (size <= length src)%nat -> (size <= length dest)%nat ->
  RiscV.riscv_memcpy_prefetch dest src size = Some (firstn size src ++ skipn size dest) /\
  Generic.riscv_memcpy_prefetch dest src size = Some (firstn size src ++ skipn size dest).
Proof.
  intros Hs Hd. split.
  - now apply riscv_memcpy_prefetch_spec.
  - now apply generic_aligned_memcpy_opt_spec.
Qed.

Lemma riscv_memcpy_prefetch_exact_witness :
  RiscV.riscv_memcpy_prefetch (repeat Byte.x00 140) (counting_bytes 140) 133 =
    Some (firstn 133 (counting_bytes 140) ++ skipn 133 (repeat Byte.x00 140)) /\
  Generic.riscv_memcpy_prefetch (repeat Byte.x00 140) (counting_bytes 140) 133 =
    Some (firstn 133 (counting_bytes 140) ++ skipn 133 (repeat Byte.x00 140)).
Proof.
  apply (riscv_memcpy_prefetch_exact (repeat Byte.x00 140) (counting_bytes 140) 133);
    buffer_length.
Defined.

(** X8: [riscv_memfill64] writes [count] little-endian copies of the 64-bit
    value and nothing else, in both builds: the unrolled loop and its
    remainder loop together do what the plain loop does. *)
Theorem riscv_memfill64_fills (dest : buffer) (value : Z) (count : nat) :
  (8 * count <= length dest)%nat ->
  RiscV.riscv_memfill64 dest value count =
    Some (concat (repeat (le_split 8 value) count) ++ skipn (8 * count) dest) /\
  Generic.riscv_memfill64 dest value count =
    Some (concat (repeat (le_split 8 value) count) ++ skipn (8 * count) dest).
Proof.
  intros H.
  rewrite riscv_memfill64_spec, generic_memfill64_spec by exact H.
  unfold written. rewrite words_bytes_fill. split; reflexivity.
Qed.

Lemma riscv_memfill64_fills_witness :
  RiscV.riscv_memfill64 (counting_bytes 100) 0x0102030405060708 11 =
    Some (concat (repeat (le_split 8 0x0102030405060708) 11)
          ++ skipn (8 * 11) (counting_bytes 100)) /\
  Generic.riscv_memfill64 (counting_bytes 100) 0x0102030405060708 11 =
    Some (concat (repeat (le_split 8 0x0102030405060708) 11)
          ++ skipn (8 * 11) (counting_bytes 100)).
Proof.
  apply (riscv_memfill64_fills (counting_bytes 100) 0x0102030405060708 11).
  buffer_length.
Defined.

(** X9: [riscv_memcpy_rvv] copies exactly [size] bytes, for every vector
    length the hart grants, and so does its scalar fallback: the two builds
    leave the same destination. *)
Theorem riscv_memcpy_rvv_exact (vsetvl_e64m1 : nat -> nat) (dst src : buffer) (size : nat) :
  vsetvl_ok vsetvl_e64m1 -> (size <= length src)%nat -> (size <= length dst)%nat ->
  RVV.riscv_memcpy_rvv vsetvl_e64m1 dst src size =
    Some (firstn size src ++ skipn size dst) /\
  Scalar.riscv_memcpy_rvv dst src size = Some (firstn size src ++ skipn size dst).
Proof.
  intros Hvl Hs Hd. split.
  - now apply riscv_memcpy_rvv_spec.
  - now apply generic_aligned_memcpy_opt_spec.
Qed.

Lemma riscv_memcpy_rvv_exact_witness :
  RVV.riscv_memcpy_rvv (vsetvl_vlen 128 64) (repeat Byte.x00 40) (counting_bytes 40) 37 =
    Some (firstn 37 (counting_bytes 40) ++ skipn 37 (repeat Byte.x00 40)) /\
  Scalar.riscv_memcpy_rvv (repeat Byte.x00 40) (counting_bytes 40) 37 =
    Some (firstn 37 (counting_bytes 40) ++ skipn 37 (repeat Byte.x00 40)).
Proof.
  apply (riscv_memcpy_rvv_exact (vsetvl_vlen 128 64) (repeat Byte.x00 40)
           (counting_bytes 40) 37); [vlen128_grants|buffer_length|buffer_length].
Defined.

(** X10: [riscv_xor_rvv] XORs the first [size] bytes of [a] with those of
    [b], byte by byte, and leaves the rest of [a] alone; the RVV build, for
    every vector length granted, and the scalar fallback give the same bytes. *)
Theorem riscv_xor_rvv_bytes (vsetvl_e64m1 : nat -> nat) (a b : buffer) (size : nat) :
  vsetvl_ok vsetvl_e64m1 -> (size <= length a)%nat -> (size <= length b)%nat ->
  RVV.riscv_xor_rvv vsetvl_e64m1 a b size =
    Some (xor_bytes (firstn size a) (firstn size b) ++ skipn size a) /\
  Scalar.riscv_xor_rvv a b size =
    Some (xor_bytes (firstn size a) (firstn size b) ++ skipn size a).
Proof.
  intros Hvl Ha Hb. split.
  - now apply riscv_xor_rvv_spec.
  - now apply scalar_xor_rvv_spec.
Qed.

Lemma riscv_xor_rvv_bytes_witness :
  RVV.riscv_xor_rvv (vsetvl_vlen 128 64) (counting_bytes 40) (repeat Byte.xa5 40) 37 =
    Some (xor_bytes (firstn 37 (counting_bytes 40)) (firstn 37 (repeat Byte.xa5 40))
          ++ skipn 37 (counting_bytes 40)) /\
  Scalar.riscv_xor_rvv (counting_bytes 40) (repeat Byte.xa5 40) 37 =
    Some (xor_bytes (firstn 37 (counting_bytes 40)) (firstn 37 (repeat Byte.xa5 40))
          ++ skipn 37 (counting_bytes 40)).
Proof.
  apply (riscv_xor_rvv_bytes (vsetvl_vlen 128 64) (counting_bytes 40)
           (repeat Byte.xa5 40) 37); [vlen128_grants|buffer_length|buffer_length].
Defined.

(** X11: XORing the same [b] into [a] twice gives [a] back, in both builds. *)
Theorem riscv_xor_rvv_twice (vsetvl_e64m1 : nat -> nat) (a b : buffer) (size : nat) :
  vsetvl_ok vsetvl_e64m1 -> (size <= length a)%nat -> (size <= length b)%nat ->
  (a' <- RVV.riscv_xor_rvv vsetvl_e64m1 a b size ;;
   RVV.riscv_xor_rvv vsetvl_e64m1 a' b size) = Some a /\
  (a' <- Scalar.riscv_xor_rvv a b size ;; Scalar.riscv_xor_rvv a' b size) = Some a.
Proof.
  intros Hvl Ha Hb.
  assert (Hl : length (xor_bytes (firstn size a) (firstn size b)) = size)
    by (rewrite length_xor_bytes; rewrite !length_firstn; lia).
  destruct (prefix_replaced _ a size Hl Ha) as [Hf [Hs Hlen]].
  rewrite riscv_xor_rvv_spec, scalar_xor_rvv_spec by assumption.
  rewrite riscv_xor_rvv_spec, scalar_xor_rvv_spec by (trivial; lia).
  rewrite Hf, Hs, xor_bytes_twice by (rewrite !length_firstn; lia).
  rewrite firstn_skipn. split; reflexivity.
Qed.

Lemma riscv_xor_rvv_twice_witness :
  (a' <- RVV.riscv_xor_rvv (vsetvl_vlen 128 64) (counting_bytes 40)
           (repeat Byte.xa5 40) 37 ;;
   RVV.riscv_xor_rvv (vsetvl_vlen 128 64) a' (repeat Byte.xa5 40) 37)
    = Some (counting_bytes 40) /\
  (a' <- Scalar.riscv_xor_rvv (counting_bytes 40) (repeat Byte.xa5 40) 37 ;;
   Scalar.riscv_xor_rvv a' (repeat Byte.xa5 40) 37) = Some (counting_bytes 40).
Proof.
  apply (riscv_xor_rvv_twice (vsetvl_vlen 128 64) (counting_bytes 40)
           (repeat Byte.xa5 40) 37); [vlen128_grants|buffer_length|buffer_length].
Defined.

(** X12: [riscv_aes_subbytes_rvv] XORs each of the first [size] bytes with
    [0x63] and leaves the rest alone, the same in both builds; it is not a
    table lookup, and applying it twice gives the state back. *)
Theorem riscv_aes_subbytes_rvv_bytes (vsetvl_e8m1 : nat -> nat) (state : buffer)
    (size : nat) :
  vsetvl_ok vsetvl_e8m1 -> (size <= length state)%nat ->
  RVV.riscv_aes_subbytes_rvv vsetvl_e8m1 state size =
    Some (xor_const 0x63 (firstn size state) ++ skipn size state) /\
  Scalar.riscv_aes_subbytes_rvv state size =
    Some (xor_const 0x63 (firstn size state) ++ skipn size state) /\
  (s' <- RVV.riscv_aes_subbytes_rvv vsetvl_e8m1 state size ;;
   RVV.riscv_aes_subbytes_rvv vsetvl_e8m1 s' size) = Some state /\
  (s' <- Scalar.riscv_aes_subbytes_rvv state size ;;
   Scalar.riscv_aes_subbytes_rvv s' size) = Some state.
Proof.
  intros Hvl Hlen.
  assert (Hl : length (xor_const 0x63 (firstn size state)) = size)
    by (rewrite length_xor_const, length_firstn; lia).
  destruct (prefix_replaced _ state size Hl Hlen) as [Hf [Hs Hlen']].
  rewrite riscv_aes_subbytes_rvv_spec, scalar_aes_subbytes_spec by assumption.
  rewrite riscv_aes_subbytes_rvv_spec, scalar_aes_subbytes_spec by (trivial; lia).
  rewrite Hf, Hs, xor_const_twice, firstn_skipn. repeat split; reflexivity.
Qed.

Lemma riscv_aes_subbytes_rvv_bytes_witness :
  RVV.riscv_aes_subbytes_rvv (vsetvl_vlen 128 8) (counting_bytes 40) 37 =
    Some (xor_const 0x63 (firstn 37 (counting_bytes 40)) ++ skipn 37 (counting_bytes 40)) /\
  Scalar.riscv_aes_subbytes_rvv (counting_bytes 40) 37 =
    Some (xor_const 0x63 (firstn 37 (counting_bytes 40)) ++ skipn 37 (counting_bytes 40)) /\
  (s' <- RVV.riscv_aes_subbytes_rvv (vsetvl_vlen 128 8) (counting_bytes 40) 37 ;;
   RVV.riscv_aes_subbytes_rvv (vsetvl_vlen 128 8) s' 37) = Some (counting_bytes 40) /\
  (s' <- Scalar.riscv_aes_subbytes_rvv (counting_bytes 40) 37 ;;
   Scalar.riscv_aes_subbytes_rvv s' 37) = Some (counting_bytes 40).
Proof.
  apply (riscv_aes_subbytes_rvv_bytes (vsetvl_vlen 128 8) (counting_bytes 40) 37);
    [vlen128_grants|buffer_length].
Defined.

(** X13: [riscv_aes_rotate_rvv] turns each of the first [count] 4-byte groups
    [b0 b1 b2 b3] of the buffer into [b3 b0 b1 b2] (a left rotation of the
    little-endian word by 8 bits) and leaves the rest alone; the RVV build,
    for every vector length granted, and the scalar fallback agree. *)
Theorem riscv_aes_rotate_rvv_bytes (vsetvl_e32m1 : nat -> nat) (data : buffer)
    (count : nat) :
  vsetvl_ok vsetvl_e32m1 -> (4 * count <= length data)%nat ->
  RVV.riscv_aes_rotate_rvv vsetvl_e32m1 data count =
    Some (rotl8_words count data ++ skipn (4 * count) data) /\
  Scalar.riscv_aes_rotate_rvv data count =
    Some (rotl8_words count data ++ skipn (4 * count) data).
Proof.
  intros Hvl H. split.
  - now apply riscv_aes_rotate_rvv_spec.
  - now apply scalar_aes_rotate_spec.
Qed.

Lemma riscv_aes_rotate_rvv_bytes_witness :
  RVV.riscv_aes_rotate_rvv (vsetvl_vlen 128 32) (counting_bytes 30) 7 =
    Some (rotl8_words 7 (counting_bytes 30) ++ skipn (4 * 7) (counting_bytes 30)) /\
  Scalar.riscv_aes_rotate_rvv (counting_bytes 30) 7 =
    Some (rotl8_words 7 (counting_bytes 30) ++ skipn (4 * 7) (counting_bytes 30)).
Proof.
  apply (riscv_aes_rotate_rvv_bytes (vsetvl_vlen 128 32) (counting_bytes 30) 7);
    [vlen128_grants|buffer_length].
Defined.

(** X14: four calls of [riscv_aes_rotate_rvv] on the same words give the
    buffer back. *)
Theorem riscv_aes_rotate_rvv_four_times (vsetvl_e32m1 : nat -> nat) (data : buffer)
    (count : nat) :
  vsetvl_ok vsetvl_e32m1 -> (4 * count <= length data)%nat ->
  (d1 <- RVV.riscv_aes_rotate_rvv vsetvl_e32m1 data count ;;
   d2 <- RVV.riscv_aes_rotate_rvv vsetvl_e32m1 d1 count ;;
   d3 <- RVV.riscv_aes_rotate_rvv vsetvl_e32m1 d2 count ;;
   RVV.riscv_aes_rotate_rvv vsetvl_e32m1 d3 count) = Some data /\
  (d1 <- Scalar.riscv_aes_rotate_rvv data count ;;
   d2 <- Scalar.riscv_aes_rotate_rvv d1 count ;;
   d3 <- Scalar.riscv_aes_rotate_rvv d2 count ;;
   Scalar.riscv_aes_rotate_rvv d3 count) = Some data.
Proof.
  intros Hvl H.
  set (rot := fun d => rotl8_words count d ++ skipn (4 * count) d).
  assert (Hlen : forall d, (4 * count <= length d)%nat -> (4 * count <= length (rot d))%nat)
    by (intros d Hd; unfold rot; rewrite length_rotated; trivial).
  assert (Hr : forall d, (4 * count <= length d)%nat ->
            RVV.riscv_aes_rotate_rvv vsetvl_e32m1 d count = Some (rot d))
    by (intros d Hd; now apply riscv_aes_rotate_rvv_spec).
  assert (Hs : forall d, (4 * count <= length d)%nat ->
            Scalar.riscv_aes_rotate_rvv d count = Some (rot d))
    by (intros d Hd; now apply scalar_aes_rotate_spec).
  pose proof (rotl8_words_four_times count data H) as E. cbv zeta in E. fold rot in E.
  rewrite (Hr data), (Hr (rot data)), (Hr (rot (rot data))), (Hr (rot (rot (rot data))))
    by auto.
  rewrite (Hs data), (Hs (rot data)), (Hs (rot (rot data))), (Hs (rot (rot (rot data))))
    by auto.
  rewrite E. split; reflexivity.
Qed.

Lemma riscv_aes_rotate_rvv_four_times_witness :
  (d1 <- RVV.riscv_aes_rotate_rvv (vsetvl_vlen 128 32) (counting_bytes 30) 7 ;;
   d2 <- RVV.riscv_aes_rotate_rvv (vsetvl_vlen 128 32) d1 7 ;;
   d3 <- RVV.riscv_aes_rotate_rvv (vsetvl_vlen 128 32) d2 7 ;;
   RVV.riscv_aes_rotate_rvv (vsetvl_vlen 128 32) d3 7) = Some (counting_bytes 30) /\
  (d1 <- Scalar.riscv_aes_rotate_rvv (counting_bytes 30) 7 ;;
   d2 <- Scalar.riscv_aes_rotate_rvv d1 7 ;;
   d3 <- Scalar.riscv_aes_rotate_rvv d2 7 ;;
   Scalar.riscv_aes_rotate_rvv d3 7) = Some (counting_bytes 30).
Proof.
  apply (riscv_aes_rotate_rvv_four_times (vsetvl_vlen 128 32) (counting_bytes 30) 7);
    [vlen128_grants|buffer_length].
Defined.

(** X15: on ranges inside both buffers the RISC-V [riscv_memcmp_fast] (word
    loop, byte loop, tail loop) and the non-RISC-V build (the C library's
    [memcmp]) both return, and their results have the same sign. *)
Theorem riscv_memcmp_fast_builds_same_sign (a b : buffer) (n : nat) :
  (n <= length a)%nat -> (n <= length b)%nat ->
  exists v w, RiscV.riscv_memcmp_fast a b n = Some v /\
              Generic.riscv_memcmp_fast a b n = Some w /\
              Z.sgn v = Z.sgn w.
Proof.
  intros Ha Hb.
  assert (Hvl : vsetvl_ok (fun avl => avl)) by (intros avl Havl; lia).
  apply (contract_same_sign _ _ a b n Ha Hb);
    apply (bulk_compares_contract _ a b n Hvl Ha Hb); cbn; auto.
Qed.

Lemma riscv_memcmp_fast_builds_same_sign_witness :
  exists v w, RiscV.riscv_memcmp_fast sample_a sample_b 19 = Some v /\
              Generic.riscv_memcmp_fast sample_a sample_b 19 = Some w /\
              Z.sgn v = Z.sgn w.
Proof.
  apply (riscv_memcmp_fast_builds_same_sign sample_a sample_b 19); buffer_length.
Defined.

(** X16: the same for [riscv_memcmp_rvv]: for every vector length granted,
    the RVV build and its scalar fallback both return, and their results
    have the same sign. *)
Theorem riscv_memcmp_rvv_builds_same_sign (vsetvl_e64m1 : nat -> nat) (a b : buffer) (n : nat) :
  vsetvl_ok vsetvl_e64m1 -> (n <= length a)%nat -> (n <= length b)%nat ->
  exists v w, RVV.riscv_memcmp_rvv vsetvl_e64m1 a b n = Some v /\
              Scalar.riscv_memcmp_rvv a b n = Some w /\
              Z.sgn v = Z.sgn w.
Proof.
  intros Hvl Ha Hb.
  apply (contract_same_sign _ _ a b n Ha Hb);
    apply (bulk_compares_contract _ a b n Hvl Ha Hb); cbn; auto.
Qed.

Lemma riscv_memcmp_rvv_builds_same_sign_witness :
  exists v w, RVV.riscv_memcmp_rvv (vsetvl_vlen 128 64) sample_a sample_b 19 = Some v /\
              Scalar.riscv_memcmp_rvv sample_a sample_b 19 = Some w /\
              Z.sgn v = Z.sgn w.
Proof.
  apply (riscv_memcmp_rvv_builds_same_sign (vsetvl_vlen 128 64) sample_a sample_b 19);
    [vlen128_grants|buffer_length|buffer_length].
Defined.

(** X17: every bulk compare returns 0 exactly when the two ranges are
    equal: a zero result is never a missed difference. *)
Theorem bulk_compare_zero_iff_equal (vsetvl_e64m1 : nat -> nat) (a b : buffer) (n : nat) :
  vsetvl_ok vsetvl_e64m1 -> (n <= length a)%nat -> (n <= length b)%nat ->
  forall compare, In compare (bulk_compares vsetvl_e64m1) ->
    exists v, compare a b n = Some v /\
              (v = 0 <-> firstn n a = firstn n b).
Proof.
  intros Hvl Ha Hb compare Hin.
  apply (contract_zero_iff _ a b n Ha Hb).
  exact (bulk_compares_contract vsetvl_e64m1 a b n Hvl Ha Hb compare Hin).
Qed.

Lemma bulk_compare_zero_iff_equal_witness :
  exists v, RiscV.riscv_memcmp_fast sample_a sample_b 19 = Some v /\
            (v = 0 <-> firstn 19 sample_a = firstn 19 sample_b).
Proof.
  apply (bulk_compare_zero_iff_equal (vsetvl_vlen 128 64) sample_a sample_b 19);
    [vlen128_grants|buffer_length|buffer_length|left; reflexivity].
Defined.

(** X18: swapping the two buffers turns the sign of the result of every
    bulk compare. *)
Theorem bulk_compare_swap_sign (vsetvl_e64m1 : nat -> nat) (a b : buffer) (n : nat) :
  vsetvl_ok vsetvl_e64m1 -> (n <= length a)%nat -> (n <= length b)%nat ->
  forall compare, In compare (bulk_compares vsetvl_e64m1) ->
    exists v w, compare a b n = Some v /\ compare b a n = Some w /\
                Z.sgn w = - Z.sgn v.
Proof.
  intros Hvl Ha Hb compare Hin.
  apply (contract_swap _ _ a b n Ha Hb).
  - exact (bulk_compares_contract vsetvl_e64m1 a b n Hvl Ha Hb compare Hin).
  - exact (bulk_compares_contract vsetvl_e64m1 b a n Hvl Hb Ha compare Hin).
Qed.

Lemma bulk_compare_swap_sign_witness :
  exists v w,
    RVV.riscv_memcmp_rvv (vsetvl_vlen 128 64) sample_a sample_b 19 = Some v /\
    RVV.riscv_memcmp_rvv (vsetvl_vlen 128 64) sample_b sample_a 19 = Some w /\
    Z.sgn w = - Z.sgn v.
Proof.
  apply (bulk_compare_swap_sign (vsetvl_vlen 128 64) sample_a sample_b 19);
    [vlen128_grants|buffer_length|buffer_length|right; right; left; reflexivity].
Defined.

(** X19: what [riscv_memset_rvv] writes.  The RVV build, for every vector
    length granted, writes [size / 4] little-endian copies of the 32-bit
    pattern followed by [size mod 4] copies of its low byte; the scalar
    fallback writes [size] copies of the low byte; neither touches a byte at
    offset [size] or beyond. *)
Theorem riscv_memset_rvv_bytes (vsetvl_e32m1 : nat -> nat) (dst : buffer)
    (pattern : Z) (size : nat) :
  vsetvl_ok vsetvl_e32m1 -> (size <= length dst)%nat ->
  RVV.riscv_memset_rvv vsetvl_e32m1 dst pattern size =
    Some (concat (repeat (le_split 4 pattern) (size / 4))
          ++ repeat (byte.of_Z (Z.land pattern 0xFF)) (size mod 4)
          ++ skipn size dst) /\
  Scalar.riscv_memset_rvv dst pattern size =
    Some (repeat (byte.of_Z (Z.land pattern 0xFF)) size ++ skipn size dst).
Proof.
  intros Hvl Hlen. split.
  - now apply riscv_memset_rvv_spec.
  - now apply scalar_memset_rvv_spec.
Qed.

Lemma riscv_memset_rvv_bytes_witness :
  RVV.riscv_memset_rvv (vsetvl_vlen 128 32) (counting_bytes 30) 0x01020304 27 =
    Some (concat (repeat (le_split 4 0x01020304) (27 / 4))
          ++ repeat (byte.of_Z (Z.land 0x01020304 0xFF)) (27 mod 4)
          ++ skipn 27 (counting_bytes 30)) /\
  Scalar.riscv_memset_rvv (counting_bytes 30) 0x01020304 27 =
    Some (repeat (byte.of_Z (Z.land 0x01020304 0xFF)) 27 ++ skipn 27 (counting_bytes 30)).
Proof.
  apply (riscv_memset_rvv_bytes (vsetvl_vlen 128 32) (counting_bytes 30) 0x01020304 27);
    [vlen128_grants|buffer_length].
Defined.

(** X20: from 4 bytes on, the two builds of [riscv_memset_rvv] leave the same
    bytes exactly when the four bytes of the pattern are equal. *)
Theorem riscv_memset_rvv_builds_agree_iff (vsetvl_e32m1 : nat -> nat) (dst : buffer)
    (pattern : Z) (size : nat) :
  vsetvl_ok vsetvl_e32m1 -> (4 <= size <= length dst)%nat ->
  RVV.riscv_memset_rvv vsetvl_e32m1 dst pattern size =
  Scalar.riscv_memset_rvv dst pattern size <->
  le_split 4 pattern = repeat (byte.of_Z (Z.land pattern 0xFF)) 4.
Proof.
  intros Hvl Hsize. split.
  - now apply memset_rvv_builds_agree_only.
  - intros Hpat. apply memset_rvv_builds_agree; trivial; lia.
Qed.

Lemma riscv_memset_rvv_builds_agree_iff_witness :
  RVV.riscv_memset_rvv (vsetvl_vlen 128 32) (counting_bytes 30) 0x07070707 27 =
  Scalar.riscv_memset_rvv (counting_bytes 30) 0x07070707 27 <->
  le_split 4 0x07070707 = repeat (byte.of_Z (Z.land 0x07070707 0xFF)) 4.
Proof.
  apply (riscv_memset_rvv_builds_agree_iff (vsetvl_vlen 128 32) (counting_bytes 30)
           0x07070707 27); [vlen128_grants|buffer_length].
Defined.

(** X21: the RISC-V [aligned_memcpy_opt] copies whole 64-byte groups: for
    [size / 8] words it copies [64 * ceil((size / 8) / 8)] bytes, whatever
    [size] is, and leaves the bytes after them alone. *)
Theorem aligned_memcpy_opt_rounds_up (dst src : buffer) (size : nat) :
  let copied := (64 * ((size / 8 + 7) / 8))%nat in
  (copied <= length src)%nat -> (copied <= length dst)%nat ->
  RiscV.aligned_memcpy_opt dst src size = Some (firstn copied src ++ skipn copied dst).
Proof. exact (aligned_memcpy_opt_copies_groups dst src size). Qed.

Lemma aligned_memcpy_opt_rounds_up_witness :
  RiscV.aligned_memcpy_opt (repeat Byte.x00 140) (counting_bytes 140) 100 =
  Some (firstn 128 (counting_bytes 140) ++ skipn 128 (repeat Byte.x00 140)).
Proof.
  apply (aligned_memcpy_opt_rounds_up (repeat Byte.x00 140) (counting_bytes 140) 100);
    buffer_length.
Defined.

(** The multiple-of-64 case on two 128-byte buffers. *)
Lemma aligned_memcpy_opt_multiple_of_64_witness :
  RiscV.aligned_memcpy_opt (repeat Byte.x00 140) (counting_bytes 140) (64 * 2) =
  Some (firstn (64 * 2) (counting_bytes 140) ++ skipn (64 * 2) (repeat Byte.x00 140)).
Proof.
  apply (aligned_memcpy_opt_multiple_of_64 (repeat Byte.x00 140) (counting_bytes 140) 2);
    buffer_length.
Defined.
